(** * sytralrt: the feed loaders and their refresh cycles

    A shallow embedding of [loader.go] (package [sytralrt]) and of the
    refresh loops of [cmd/sytral-rt/main.go], with the parts of the Go
    standard library they rely on ([encoding/csv], [time]) modelled next to
    them, followed by the properties of the loaders. *)

From Stdlib Require Import ZArith Lia String Ascii List Bool Sorted.
From stdpp Require Import prelude strings gmap.
Import ListNotations.

(** ** Errors

    Go's [error] values, one constructor per origin. *)

Inductive ParseErr :=
| ErrBareQuote      (* csv: bare quote in a non-quoted field *)
| ErrQuote          (* csv: extraneous or missing quote in a quoted field *)
| ErrFieldCount.    (* csv: wrong number of fields *)

Inductive error :=
| EOF                                         (* io.EOF *)
| ErrUnsupportedProtocol (scheme : string)    (* getFile *)
| ErrIO (msg : string)                        (* os, ssh and sftp failures *)
| ErrLoadLocation (name : string)             (* time.LoadLocation *)
| ErrCsv (e : ParseErr)                       (* *csv.ParseError *)
| ErrConsume (msg : string)                   (* a LineConsumer refusing a line *)
| ErrXml (msg : string)                       (* xml syntax or unmarshalling *)
| ErrXmlCharset (charset : string) (cause : error)  (* xml: opening charset *)
| ErrUnknownCharset                           (* getCharsetReader *)
| ErrTimeParse (value : string)               (* *time.ParseError *)
| ErrEquipment (msg : string).                (* NewEquipmentDetail *)

(** A Go result [(T, error)] whose value is only read when the error is nil. *)
Inductive result (T : Type) :=
| Ok (x : T)
| Err (e : error).
Arguments Ok {T} x.
Arguments Err {T} e.

Definition is_Err {T} (r : result T) : bool :=
  match r with Ok _ => false | Err _ => true end.

Definition LF : ascii := "010"%char.
Definition CR : ascii := "013"%char.
Definition DQUOTE : ascii := "034"%char.

(** ** Package [time]

    Instants are Unix seconds (with a nanosecond part) tagged with a
    location; a location is its table of zone transitions.  The calendar
    arithmetic follows [time.Date], [Time.Date], [Time.Clock] and
    [Time.AddDate]; Go counts days from an "absolute" year that is 1 modulo
    400 so that its unsigned divisions never see a negative number, here the
    same cycles are counted from year 1 with floor division on [Z]. *)
Module time.
Local Open Scope Z_scope.

(** From instant [when] on, local time is UTC + [offset] seconds. *)
Record zoneTrans := { when : Z; offset : Z }.

(** [zone0] is the offset in force before the first transition
    (lookupFirstZone); [tx] is sorted by [when]. *)
Record Location := { name : string; zone0 : Z; tx : list zoneTrans }.

Definition alpha : Z := - 2 ^ 63.
Definition omega : Z := 2 ^ 63 - 1.

Fixpoint lookupFrom (cur start : Z) (l : list zoneTrans) (sec : Z) : Z * Z * Z :=
  match l with
  | [] => (cur, start, omega)
  | t :: rest =>
      if sec <? when t then (cur, start, when t)
      else lookupFrom (offset t) (when t) rest sec
  end.

(** [Location.lookup]: the offset in use at [sec] and the bounds
    [start <= sec < end] of the period it is in use. *)
Definition lookup (l : Location) (sec : Z) : Z * Z * Z :=
  lookupFrom (zone0 l) alpha (tx l) sec.

Definition offsetAt (l : Location) (sec : Z) : Z := fst (fst (lookup l sec)).

Record Time := { unix : Z; nsec : Z; loc : Location }.

Definition secondsPerDay : Z := 86400.
Definition daysPer400Years : Z := 365 * 400 + 97.
Definition daysPer100Years : Z := 365 * 100 + 24.
Definition daysPer4Years : Z := 365 * 4 + 1.
(** Seconds from 0001-01-01T00:00:00Z to the Unix epoch. *)
Definition unixToInternal : Z := (1969 * 365 + 1969 / 4 - 1969 / 100 + 1969 / 400) * secondsPerDay.

Definition isLeap (year : Z) : bool :=
  (Z.rem year 4 =? 0) && (negb (Z.rem year 100 =? 0) || (Z.rem year 400 =? 0)).

(** [daysBefore m]: days in a non-leap year before month [m+1]. *)
Definition daysBefore (m : Z) : Z :=
  nth (Z.to_nat m) [0; 31; 59; 90; 120; 151; 181; 212; 243; 273; 304; 334; 365] 0.

Definition daysIn (m year : Z) : Z :=
  if (m =? 2) && isLeap year then 29 else daysBefore m - daysBefore (m - 1).

(** Days from 0001-01-01 to January 1st of [year]. *)
Definition daysSinceEpoch (year : Z) : Z :=
  let y := year - 1 in
  let n := y / 400 in
  let y := y - 400 * n in
  let d := daysPer400Years * n in
  let n := y / 100 in
  let y := y - 100 * n in
  let d := d + daysPer100Years * n in
  let n := y / 4 in
  let y := y - 4 * n in
  let d := d + daysPer4Years * n in
  d + 365 * y.

(** [norm hi lo base]: carry [lo] into [hi] until [0 <= lo < base]. *)
Definition norm (hi lo base : Z) : Z * Z := (hi + lo / base, lo mod base).

(** Seconds since 0001-01-01T00:00:00 of a wall-clock reading, read as UTC
    (the [abs] of [time.Date] before the zone adjustment). *)
Definition wallSeconds (year month day hour min sec : Z) : Z :=
  let d := daysSinceEpoch year + daysBefore (month - 1) in
  let d := if isLeap year && (3 <=? month) then d + 1 else d in
  let d := d + (day - 1) in
  d * secondsPerDay + (hour * 3600 + min * 60 + sec).

(** The second half of [time.Date]: from a reading taken as UTC to the
    instant that reads so in [l]. *)
Definition zoneAdjust (l : Location) (unix : Z) : Z :=
  let '(offset, start, end_) := lookup l unix in
  if offset =? 0 then unix
  else
    let utc := unix - offset in
    let offset :=
      if utc <? start then offsetAt l (start - 1)
      else if end_ <=? utc then offsetAt l end_
      else offset in
    unix - offset.

Definition Date (year month day hour min sec nsec : Z) (l : Location) : Time :=
  let '(year, m) := norm year (month - 1) 12 in
  let month := m + 1 in
  let '(sec, nsec) := norm sec nsec 1000000000 in
  let '(min, sec) := norm min sec 60 in
  let '(hour, min) := norm hour min 60 in
  let '(day, hour) := norm day hour 24 in
  let abs := wallSeconds year month day hour min sec in
  {| unix := zoneAdjust l (abs - unixToInternal); nsec := nsec; loc := l |}.

(** [Time.abs]: the wall-clock reading of [t] in its location, in seconds
    since 0001-01-01T00:00:00. *)
Definition abs (t : Time) : Z :=
  unix t + offsetAt (loc t) (unix t) + unixToInternal.

(** The first half of [absDate]: the year of a wall-clock reading and
    the day within the year, from 0. *)
Definition absYear (abs : Z) : Z * Z :=
  let d := abs / secondsPerDay in
  let n := d / daysPer400Years in
  let y := 400 * n in
  let d := d - daysPer400Years * n in
  let n := d / daysPer100Years in
  let n := n - Z.shiftr n 2 in
  let y := y + 100 * n in
  let d := d - daysPer100Years * n in
  let n := d / daysPer4Years in
  let y := y + 4 * n in
  let d := d - daysPer4Years * n in
  let n := d / 365 in
  let n := n - Z.shiftr n 2 in
  let y := y + n in
  let d := d - 365 * n in
  (y + 1, d).

(** The second half: month and day of the month of the day [yday] of a
    year, leap or not. *)
Definition monthDay (leap : bool) (yday : Z) : Z * Z :=
  let estimate (day : Z) : Z * Z :=
    let month := day / 31 in
    let end_ := daysBefore (month + 1) in
    if end_ <=? day then (month + 2, day - end_ + 1)
    else (month + 1, day - daysBefore month + 1) in
  if leap then
    if 31 + 29 - 1 <? yday then estimate (yday - 1)
    else if yday =? 31 + 29 - 1 then (2, 29)
    else estimate yday
  else estimate yday.

(** [absDate]: year, month and day of a wall-clock reading. *)
Definition absDate (abs : Z) : Z * Z * Z :=
  let '(year, yday) := absYear abs in
  let '(month, day) := monthDay (isLeap year) yday in
  (year, month, day).

(** [Time.Date] *)
Definition date (t : Time) : Z * Z * Z := absDate (abs t).
Definition Year (t : Time) : Z := fst (fst (date t)).
Definition Month (t : Time) : Z := snd (fst (date t)).
Definition Day (t : Time) : Z := snd (date t).

(** [Time.Clock] *)
Definition Clock (t : Time) : Z * Z * Z :=
  let sec := abs t mod secondsPerDay in
  let hour := sec / 3600 in
  let sec := sec - hour * 3600 in
  let min := sec / 60 in
  (hour, min, sec - min * 60).

(** The reading exists in [l]: the instant [time.Date] returns for it
    shows it.  A reading inside the hour that a change to summer time
    skips does not exist. *)
Definition shows (l : Location) (year month day hour min sec : Z) : Prop :=
  abs (Date year month day hour min sec 0 l) = wallSeconds year month day hour min sec.

(** [Time.AddDate] *)
Definition AddDate (t : Time) (years months days : Z) : Time :=
  let '(year, month, day) := date t in
  let '(hour, min, sec) := Clock t in
  Date (year + years) (month + months) (day + days) hour min sec (nsec t) (loc t).

(** *** Parsing

    [time.ParseInLocation] for the two layouts the loader uses. *)
Inductive layout :=
| layout_2006_01_02    (* "2006-01-02" *)
| layout_15_04_05.     (* "15:04:05" *)

Definition isDigit (c : ascii) : bool :=
  (48 <=? nat_of_ascii c)%nat && (nat_of_ascii c <=? 57)%nat.
Definition digit (c : ascii) : Z := Z.of_nat (nat_of_ascii c) - 48.

(** [getnum s fixed]: a one- or two-digit number; two digits are required
    when [fixed]. *)
Definition getnum (s : string) (fixed : bool) : option (Z * string) :=
  match s with
  | String c0 s1 =>
      if isDigit c0 then
        match s1 with
        | String c1 s2 =>
            if isDigit c1 then Some (digit c0 * 10 + digit c1, s2)
            else if fixed then None else Some (digit c0, s1)
        | EmptyString => if fixed then None else Some (digit c0, s1)
        end
      else None
  | EmptyString => None
  end.

(** The literal separators of the layouts. *)
Definition skip (c : ascii) (s : string) : option string :=
  match s with
  | String c0 rest => if Ascii.eqb c0 c then Some rest else None
  | EmptyString => None
  end.

(** stdLongYear: exactly four digits. *)
Definition getyear (s : string) : option (Z * string) :=
  match s with
  | String c0 (String c1 (String c2 (String c3 rest))) =>
      if isDigit c0 && isDigit c1 && isDigit c2 && isDigit c3
      then Some (((digit c0 * 10 + digit c1) * 10 + digit c2) * 10 + digit c3, rest)
      else None
  | _ => None
  end.

(** The run of digits at the head of [s], its value and its length. *)
Fixpoint leadingInt (acc : Z) (n : nat) (s : string) : Z * nat * string :=
  match s with
  | String c rest =>
      if isDigit c then leadingInt (acc * 10 + digit c) (S n) rest
      else (acc, n, s)
  | EmptyString => (acc, n, s)
  end.

(** A fractional second in the input that the layout does not mention:
    a period and at least one digit, scaled to nanoseconds when there are
    at most nine digits.  [None]: no fraction here; [Some None]: out of
    range. *)
Definition getfrac (s : string) : option (option (Z * string)) :=
  match s with
  | String c0 (String c1 rest as s1) =>
      if Ascii.eqb c0 "."%char && isDigit c1 then
        let '(ns, n, rest') := leadingInt 0 0 s1 in
        if 1000000000 <=? ns then Some None
        else Some (Some (if (n <=? 9)%nat then ns * 10 ^ (9 - Z.of_nat n) else ns, rest'))
      else None
  | _ => None
  end.

Definition parseDate (value : string) : option (Z * Z * Z) :=
  '(year, v) ← getyear value;
  v ← skip "-"%char v;
  '(month, v) ← getnum v true;
  if (month <=? 0) || (12 <? month) then None else
  v ← skip "-"%char v;
  '(day, v) ← getnum v true;
  match v with
  | EmptyString =>
      if (day <? 1) || (daysIn month year <? day) then None
      else Some (year, month, day)
  | _ => None
  end.

Definition parseClock (value : string) : option (Z * Z * Z * Z) :=
  '(hour, v) ← getnum value false;
  if 24 <=? hour then None else
  v ← skip ":"%char v;
  '(min, v) ← getnum v true;
  if 60 <=? min then None else
  v ← skip ":"%char v;
  '(sec, v) ← getnum v true;
  if 60 <=? sec then None else
  '(ns, v) ← match getfrac v with
             | None => Some (0, v)
             | Some r => r
             end;
  match v with
  | EmptyString => Some (hour, min, sec, ns)
  | _ => None
  end.

(** Fields absent from the layout default to year 0, January 1st,
    00:00:00. *)
Definition ParseInLocation (l : layout) (value : string) (loc : Location) : result Time :=
  match l with
  | layout_2006_01_02 =>
      match parseDate value with
      | Some (year, month, day) => Ok (Date year month day 0 0 0 0 loc)
      | None => Err (ErrTimeParse value)
      end
  | layout_15_04_05 =>
      match parseClock value with
      | Some (hour, min, sec, ns) => Ok (Date 0 1 1 hour min sec ns loc)
      | None => Err (ErrTimeParse value)
      end
  end.

(** [Duration.Seconds() < 1] for a duration in nanoseconds.  [Seconds]
    is [float64(d / Second) + float64(d % Second) / 1e9]; with truncated
    division the sum is below 1 exactly for the durations under one
    second. *)
Definition Second : Z := 1000000000.
Definition Seconds_lt_1 (d : Z) : bool := d <? Second.
End time.

(** ** Package [encoding/csv]

    [csv.Reader] with its default settings (no comment character, strict
    quotes, no space trimming).  A record is a list of fields. *)
Module csv.

(** [bufio.Reader.ReadSlice('\n')] applied until the input is exhausted:
    the input cut after each line feed. *)
Fixpoint rawLines (s : string) : list string :=
  match s with
  | EmptyString => []
  | String c rest =>
      if Ascii.eqb c LF then String c EmptyString :: rawLines rest
      else match rawLines rest with
           | [] => [String c EmptyString]
           | l :: ls => String c l :: ls
           end
  end.

(** [readLine]'s clean-up of one line: a carriage return that ends the
    input is dropped, and a final "\r\n" becomes "\n". *)
Fixpoint normalizeLine (l : string) : string :=
  match l with
  | EmptyString => EmptyString
  | String c rest =>
      if Ascii.eqb c CR then
        match rest with
        | EmptyString => EmptyString
        | String c' EmptyString =>
            if Ascii.eqb c' LF then String LF EmptyString
            else String c (normalizeLine rest)
        | _ => String c (normalizeLine rest)
        end
      else String c (normalizeLine rest)
  end.

(** [len(line) == lengthNL(line)] *)
Definition isEmptyLine (l : string) : bool :=
  match l with
  | EmptyString => true
  | String c EmptyString => Ascii.eqb c LF
  | _ => false
  end.

Definition atLineEnd (c : ascii) (rest : string) : bool :=
  Ascii.eqb c LF && match rest with EmptyString => true | _ => false end.

Definition snoc (s : string) (c : ascii) : string := s +:+ String c EmptyString.

Inductive mode := AtFieldStart | InBare | InQuoted.

(** What the parseField loop makes of one line. *)
Inductive lineResult :=
| Done (fields : list string)                 (* the record ends with the line *)
| Bad (fields : list string) (e : ParseErr)   (* the fields completed before the error *)
| Open (fields : list string) (buf : string). (* a quoted field runs on to the next line *)

(** The parseField loop of [readRecord] over one line.  [fields] are the
    fields completed so far and [buf] the text of the field being read. *)
Fixpoint parseField (comma : ascii) (m : mode) (fields : list string) (buf : string)
    (line : string) : lineResult :=
  match line with
  | EmptyString =>
      match m with
      | InQuoted => Open fields buf
      | _ => Done (fields ++ [buf])
      end
  | String c rest =>
      let bare :=
        if Ascii.eqb c comma then parseField comma AtFieldStart (fields ++ [buf]) EmptyString rest
        else if atLineEnd c rest then Done (fields ++ [buf])
        else if Ascii.eqb c DQUOTE then Bad fields ErrBareQuote
        else parseField comma InBare fields (snoc buf c) rest in
      match m with
      | AtFieldStart =>
          if Ascii.eqb c DQUOTE then parseField comma InQuoted fields EmptyString rest
          else bare
      | InBare => bare
      | InQuoted =>
          if Ascii.eqb c DQUOTE then
            match rest with
            | EmptyString => Done (fields ++ [buf])
            | String c' rest' =>
                if Ascii.eqb c' DQUOTE then parseField comma InQuoted fields (snoc buf DQUOTE) rest'
                else if Ascii.eqb c' comma then
                  parseField comma AtFieldStart (fields ++ [buf]) EmptyString rest'
                else if atLineEnd c' rest' then Done (fields ++ [buf])
                else Bad fields ErrQuote
            end
          else parseField comma InQuoted fields (snoc buf c) rest
      end
  end.

(** One call of [readRecord] before its field-count check: the fields
    read and the parse error, if any. *)
Definition rawRecord : Type := list string * option ParseErr.

(** The successive results of [readRecord] over the lines of the input,
    up to the end of the input.  Empty lines between records are skipped;
    [cont] carries a quoted field left open by the previous line. *)
Fixpoint readRecords (comma : ascii) (cont : option (list string * string))
    (lines : list string) : list rawRecord :=
  match lines with
  | [] =>
      match cont with
      | None => []
      | Some (fields, _) => [(fields, Some ErrQuote)]
      end
  | l :: ls =>
      let r :=
        match cont with
        | None =>
            if isEmptyLine l then None
            else Some (parseField comma AtFieldStart [] EmptyString l)
        | Some (fields, buf) => Some (parseField comma InQuoted fields buf l)
        end in
      match r with
      | None => readRecords comma None ls
      | Some (Done fields) => (fields, None) :: readRecords comma None ls
      | Some (Bad fields e) => (fields, Some e) :: readRecords comma None ls
      | Some (Open fields buf) => readRecords comma (Some (fields, buf)) ls
      end
  end.

(** The reader: the bytes it was created on, its settings, and the number
    of records already read. *)
Record Reader := {
  r : string;
  Comma : ascii;
  FieldsPerRecord : Z;
  numRead : nat
}.

Definition NewReader (file : string) : Reader :=
  {| r := file; Comma := ","%char; FieldsPerRecord := 0; numRead := 0 |}.

Definition set_Comma (rd : Reader) (c : ascii) : Reader :=
  {| r := r rd; Comma := c; FieldsPerRecord := FieldsPerRecord rd; numRead := numRead rd |}.
Definition set_FieldsPerRecord (rd : Reader) (n : Z) : Reader :=
  {| r := r rd; Comma := Comma rd; FieldsPerRecord := n; numRead := numRead rd |}.

(** All the raw records of the reader's input. *)
Definition records (comma : ascii) (file : string) : list rawRecord :=
  readRecords comma None (map normalizeLine (rawLines file)).

(** The raw records the reader has not read yet. *)
Definition unread (rd : Reader) : list rawRecord :=
  drop (numRead rd) (records (Comma rd) (r rd)).

(** The end of [readRecord]: check the record against [FieldsPerRecord],
    or set it from the first record when it is 0. *)
Definition checkFields (fieldsPerRecord : Z) (raw : rawRecord)
    : (list string * option error) * Z :=
  let '(dst, err) := raw in
  if (0 <? fieldsPerRecord)%Z then
    match err with
    | None =>
        if negb (Z.of_nat (length dst) =? fieldsPerRecord)%Z
        then ((dst, Some (ErrCsv ErrFieldCount)), fieldsPerRecord)
        else ((dst, None), fieldsPerRecord)
    | Some e => ((dst, Some (ErrCsv e)), fieldsPerRecord)
    end
  else if (fieldsPerRecord =? 0)%Z then
    ((dst, ErrCsv <$> err), Z.of_nat (length dst))
  else ((dst, ErrCsv <$> err), fieldsPerRecord).

(** [Reader.Read] *)
Definition Read (rd : Reader) : (list string * option error) * Reader :=
  match unread rd with
  | [] => (([], Some EOF), rd)
  | raw :: _ =>
      let '(res, n) := checkFields (FieldsPerRecord rd) raw in
      (res, {| r := r rd; Comma := Comma rd; FieldsPerRecord := n;
               numRead := S (numRead rd) |})
  end.
End csv.

(** ** Package [sytralrt]: what [loader.go] takes from its surroundings *)

(** [url.URL], the fields [getFile] reads. *)
Record URL := {
  Scheme : string;
  Username : string;
  Password : string;
  Host : string;
  Path : string
}.

(** What a refresh cycle finds outside the process: the files behind the
    two retrieval schemes, the time zone database, and the time the cycle
    took (nanoseconds) by the clock. *)
Record World := {
  readFile : string → result string;        (* os.Open and Buffer.ReadFrom *)
  sftpGet : URL → result string;            (* ssh.Dial ... File.WriteTo *)
  LoadLocation : string → result time.Location;
  elapsed : Z
}.

(** The [LineConsumer] interface.  [Consume] may change the consumer even
    when it reports an error. *)
Class LineConsumer (C : Type) := {
  Consume : C → list string → time.Location → C * option error;
  Terminate : C → C
}.

Record LoadDataOptions := {
  skipFirstLine : bool;
  delimiter : ascii;
  nbFields : Z
}.

(** The header block of the equipment document. *)
Record Info := { Date : string; Hour : string }.

(** The document tree the decoder fills in, over the type of its
    equipment elements. *)
Record Station (EquipmentSource : Type) := { Equipments : list EquipmentSource }.
Record Line (EquipmentSource : Type) := { Stations : list (Station EquipmentSource) }.
Record Data (EquipmentSource : Type) := { Lines : list (Line EquipmentSource) }.
Record Root (EquipmentSource : Type) := {
  Root_Info : Info;
  Root_Data : Data EquipmentSource
}.
Arguments Equipments {_} _.
Arguments Stations {_} _.
Arguments Lines {_} _.
Arguments Root_Info {_} _.
Arguments Root_Data {_} _.

(** The Prometheus collectors of the package: a counter is its count, a
    histogram the list of its observations (latest first). *)
Record Metrics := {
  departureLoadingDuration : list Z;
  departureLoadingErrors : nat;
  parkingsLoadingDuration : list Z;
  parkingsLoadingErrors : nat;
  equipmentsLoadingDuration : list Z;
  equipmentsLoadingErrors : nat
}.

Inductive Feed := DeparturesFeed | ParkingsFeed | EquipmentsFeed.

#[global] Instance Feed_eq_dec : EqDecision Feed.
Proof. solve_decision. Defined.

Definition Inc (f : Feed) (m : Metrics) : Metrics :=
  match f with
  | DeparturesFeed =>
      {| departureLoadingDuration := departureLoadingDuration m;
         departureLoadingErrors := S (departureLoadingErrors m);
         parkingsLoadingDuration := parkingsLoadingDuration m;
         parkingsLoadingErrors := parkingsLoadingErrors m;
         equipmentsLoadingDuration := equipmentsLoadingDuration m;
         equipmentsLoadingErrors := equipmentsLoadingErrors m |}
  | ParkingsFeed =>
      {| departureLoadingDuration := departureLoadingDuration m;
         departureLoadingErrors := departureLoadingErrors m;
         parkingsLoadingDuration := parkingsLoadingDuration m;
         parkingsLoadingErrors := S (parkingsLoadingErrors m);
         equipmentsLoadingDuration := equipmentsLoadingDuration m;
         equipmentsLoadingErrors := equipmentsLoadingErrors m |}
  | EquipmentsFeed =>
      {| departureLoadingDuration := departureLoadingDuration m;
         departureLoadingErrors := departureLoadingErrors m;
         parkingsLoadingDuration := parkingsLoadingDuration m;
         parkingsLoadingErrors := parkingsLoadingErrors m;
         equipmentsLoadingDuration := equipmentsLoadingDuration m;
         equipmentsLoadingErrors := S (equipmentsLoadingErrors m) |}
  end.

Definition Observe (f : Feed) (d : Z) (m : Metrics) : Metrics :=
  match f with
  | DeparturesFeed =>
      {| departureLoadingDuration := d :: departureLoadingDuration m;
         departureLoadingErrors := departureLoadingErrors m;
         parkingsLoadingDuration := parkingsLoadingDuration m;
         parkingsLoadingErrors := parkingsLoadingErrors m;
         equipmentsLoadingDuration := equipmentsLoadingDuration m;
         equipmentsLoadingErrors := equipmentsLoadingErrors m |}
  | ParkingsFeed =>
      {| departureLoadingDuration := departureLoadingDuration m;
         departureLoadingErrors := departureLoadingErrors m;
         parkingsLoadingDuration := d :: parkingsLoadingDuration m;
         parkingsLoadingErrors := parkingsLoadingErrors m;
         equipmentsLoadingDuration := equipmentsLoadingDuration m;
         equipmentsLoadingErrors := equipmentsLoadingErrors m |}
  | EquipmentsFeed =>
      {| departureLoadingDuration := departureLoadingDuration m;
         departureLoadingErrors := departureLoadingErrors m;
         parkingsLoadingDuration := parkingsLoadingDuration m;
         parkingsLoadingErrors := parkingsLoadingErrors m;
         equipmentsLoadingDuration := d :: equipmentsLoadingDuration m;
         equipmentsLoadingErrors := equipmentsLoadingErrors m |}
  end.

(** What the refresh loops do, in the order they do it. *)
Inductive event :=
| EvRefresh (f : Feed) (err : option error)   (* one refresh cycle and its error *)
| EvLog (level : string) (msg : string)       (* logrus *)
| EvSleep (d : Z).                            (* time.Sleep *)

(** How far a loop got in the iterations it was followed for. *)
Inductive progress := Returned | Looping.



(** The refresh cycles that returned an error, and the errors logged. *)
Definition isFailure (e : event) : bool :=
  match e with EvRefresh _ (Some _) => true | _ => false end.

Definition failures (evs : list event) : nat := length (List.filter isFailure evs).

Definition isErrorLog (e : event) : bool :=
  match e with EvLog level _ => String.eqb level "error" | _ => false end.

Definition errorLogs (evs : list event) : nat := length (List.filter isErrorLog evs).

(** ** File retrieval *)

Definition getFileWithFS (w : World) (uri : URL) : result string :=
  readFile w (Path uri).

Definition getFileWithSftp (w : World) (uri : URL) : result string :=
  sftpGet w uri.

Definition getFile (w : World) (uri : URL) : result string :=
  if String.eqb (Scheme uri) "sftp" then getFileWithSftp w uri
  else if String.eqb (Scheme uri) "file" then getFileWithFS w uri
  else Err (ErrUnsupportedProtocol (Scheme uri)).

(** ** The delimited loader *)

Section LoadData.
Context {C : Type} `{!LineConsumer C}.

(** The [for] loop of [LoadDataWithOptions].  [src] is what the reader
    has not read yet and [fieldsPerRecord] its current setting, so that
    the head of the match is [reader.Read()]. *)
Fixpoint readLoop (location : time.Location) (fieldsPerRecord : Z) (skipFirstLine : bool)
    (lineConsumer : C) (src : list csv.rawRecord) : C * option error :=
  match src with
  | [] => (Terminate lineConsumer, None)
  | raw :: src' =>
      let '((line, err), n) := csv.checkFields fieldsPerRecord raw in
      match err with
      | Some e => (lineConsumer, Some e)
      | None =>
          if skipFirstLine then readLoop location n false lineConsumer src'
          else
            match Consume lineConsumer line location with
            | (c, Some e) => (c, Some e)
            | (c, None) => readLoop location n skipFirstLine c src'
            end
      end
  end.

Definition LoadDataWithOptions (w : World) (file : string) (lineConsumer : C)
    (options : LoadDataOptions) : C * option error :=
  match LoadLocation w "Europe/Paris" with
  | Err e => (lineConsumer, Some e)
  | Ok location =>
      let reader := csv.NewReader file in
      let reader := csv.set_Comma reader (delimiter options) in
      let reader := csv.set_FieldsPerRecord reader (nbFields options) in
      readLoop location (csv.FieldsPerRecord reader) (skipFirstLine options)
        lineConsumer (csv.unread reader)
  end.

Definition LoadData (w : World) (file : string) (lineConsumer : C) : C * option error :=
  LoadDataWithOptions w file lineConsumer
    {| delimiter := ";"%char; nbFields := 8; skipFirstLine := false |}.

(** Handing lines to the consumer one after the other, up to the first
    it refuses: what the loop does between two reads, taken on its own. *)
Fixpoint consumeAll (location : time.Location) (lineConsumer : C)
    (lines : list (list string)) : C * option error :=
  match lines with
  | [] => (lineConsumer, None)
  | line :: lines' =>
      match Consume lineConsumer line location with
      | (c, Some e) => (c, Some e)
      | (c, None) => consumeAll location c lines'
      end
  end.

(** The end of a load whose reads all went well: [Terminate], unless the
    consumer refused a line. *)
Definition finish (res : C * option error) : C * option error :=
  match res with
  | (c, None) => (Terminate c, None)
  | (c, Some e) => (c, Some e)
  end.

(** The same after the reader has refused a record with error [e]. *)
Definition refuse (e : error) (res : C * option error) : C * option error :=
  match res with
  | (c, None) => (c, Some e)
  | (c, Some e') => (c, Some e')
  end.
End LoadData.

(** A raw record read without error, with [n] fields. *)
Definition wellFormed (n : nat) (raw : csv.rawRecord) : Prop :=
  snd raw = None ∧ length (fst raw) = n.

(** The options of [RefreshParkings]. *)
Definition parkingOptions : LoadDataOptions :=
  {| delimiter := ";"%char; nbFields := 0; skipFirstLine := true |}.

(** The equipment elements of a document in the order the loader visits
    them: line by line, station by station. *)
Definition traversal {E : Type} (root : Root E) : list E :=
  l ← Lines (Root_Data root); s ← Stations l; Equipments s.

(** ** Date and hour of the equipment document *)

Definition CalculateDate (info : Info) (location : time.Location) : result time.Time :=
  match time.ParseInLocation time.layout_2006_01_02 (Date info) location with
  | Err e => Err e
  | Ok date =>
      match time.ParseInLocation time.layout_15_04_05 (Hour info) location with
      | Err e => Err e
      | Ok hour =>
          Ok (time.AddDate hour (time.Year date) (time.Month date - 1) (time.Day date - 1))
      end
  end.

(** [charmap.ISO8859_1.NewDecoder().Reader]: every byte is the code point
    of its character, written out in UTF-8. *)
Fixpoint ISO8859_1 (input : string) : string :=
  match input with
  | EmptyString => EmptyString
  | String c rest =>
      let n := nat_of_ascii c in
      if (n <? 128)%nat then String c (ISO8859_1 rest)
      else String (ascii_of_nat (192 + n / 64))
             (String (ascii_of_nat (128 + n mod 64)) (ISO8859_1 rest))
  end.

Definition getCharsetReader (charset : string) (input : string) : result string :=
  if String.eqb charset "ISO-8859-1" then Ok (ISO8859_1 input)
  else Err ErrUnknownCharset.

(** Bytes below 128 only. *)
Fixpoint isASCII (s : string) : bool :=
  match s with
  | EmptyString => true
  | String c s' => (nat_of_ascii c <? 128)%nat && isASCII s'
  end.

(** ** A consumer that keeps a log

    Any consumer, paired with the list of the lines it has been handed:
    the loader cannot tell it from the consumer it wraps, and the log shows
    what the loader handed over. *)
Definition recorder (C : Type) : Type := C * list (list string).

#[global] Instance recorder_LineConsumer {C : Type} `{!LineConsumer C} :
    LineConsumer (recorder C) := {|
  Consume rc line location :=
    let '(c, err) := Consume (fst rc) line location in ((c, snd rc ++ [line]), err);
  Terminate rc := (Terminate (fst rc), snd rc)
|}.

(** ** A consumer that keeps a trace of its calls

    Any consumer, paired with the calls made on it, in the order they
    were made. *)
Inductive call :=
| Consumed (line : list string)   (* Consume(line, location) *)
| Terminated.                     (* Terminate() *)

Definition tracer (C : Type) : Type := C * list call.

#[global] Instance tracer_LineConsumer {C : Type} `{!LineConsumer C} :
    LineConsumer (tracer C) := {|
  Consume tc line location :=
    let '(c, err) := Consume (fst tc) line location in
    ((c, snd tc ++ [Consumed line]), err);
  Terminate tc := (Terminate (fst tc), snd tc ++ [Terminated])
|}.

(** ** Files of plain fields

    The delimiters [csv.Reader] accepts (validDelim), among those of one
    byte. *)
Definition validDelim (r : ascii) : bool :=
  negb (Ascii.eqb r "000"%char) && negb (Ascii.eqb r DQUOTE) && negb (Ascii.eqb r CR)
  && negb (Ascii.eqb r LF) && (nat_of_ascii r <? 128)%nat.

(** A field written without quoting: no delimiter, no double quote and no
    line break in it. *)
Definition plainChar (comma c : ascii) : bool :=
  negb (Ascii.eqb c comma) && negb (Ascii.eqb c DQUOTE) && negb (Ascii.eqb c LF)
  && negb (Ascii.eqb c CR).

Fixpoint plainField (comma : ascii) (f : string) : bool :=
  match f with
  | EmptyString => true
  | String c f' => plainChar comma c && plainField comma f'
  end.

(** A line without a line break in it. *)
Fixpoint noBreak (l : string) : bool :=
  match l with
  | EmptyString => true
  | String c l' => negb (Ascii.eqb c LF) && negb (Ascii.eqb c CR) && noBreak l'
  end.

(** The fields of a row with the delimiter between them. *)
Fixpoint joinFields (comma : ascii) (fields : list string) : string :=
  match fields with
  | [] => EmptyString
  | [f] => f
  | f :: fields' => f +:+ String comma (joinFields comma fields')
  end.

(** A row of plain fields that does not make an empty line. *)
Definition plainRow (comma : ascii) (row : list string) : Prop :=
  Forall (λ f, plainField comma f = true) row ∧ joinFields comma row ≠ EmptyString.

(** A file with one line for each row, each ended by a line feed. *)
Fixpoint delimited (comma : ascii) (rows : list (list string)) : string :=
  match rows with
  | [] => EmptyString
  | row :: rows' => joinFields comma row +:+ String LF (delimited comma rows')
  end.

(** ** Package [main]: the configuration *)

Record Config := {
  DeparturesURIStr : string;
  DeparturesRefresh : Z;
  DeparturesURI : URL;
  ParkingsURIStr : string;
  ParkingsRefresh : Z;
  ParkingsURI : URL;
  EquipmentsURIStr : string;
  EquipmentsRefresh : Z;
  EquipmentsURI : URL;
  JSONLog : bool;
  LogLevel : string
}.

(** The zero values of [url.URL] and [Config]. *)
Definition zeroURL : URL :=
  {| Scheme := EmptyString; Username := EmptyString; Password := EmptyString;
     Host := EmptyString; Path := EmptyString |}.

Definition zeroConfig : Config :=
  {| DeparturesURIStr := EmptyString; DeparturesRefresh := 0; DeparturesURI := zeroURL;
     ParkingsURIStr := EmptyString; ParkingsRefresh := 0; ParkingsURI := zeroURL;
     EquipmentsURIStr := EmptyString; EquipmentsRefresh := 0; EquipmentsURI := zeroURL;
     JSONLog := false; LogLevel := EmptyString |}.

Fixpoint noneOf (args : list string) : bool :=
  match args with
  | [] => true
  | a :: args' => if negb (String.eqb a EmptyString) then false else noneOf args'
  end.

(** The errors of [GetConfig]: [errors.Wrap(err, msg)], with the text of
    [err] for the cause, and [errors.New(msg)]. *)
Inductive configError :=
| Wrap (cause : string) (msg : string)
| New (msg : string).

(** What [main] finds when the process starts.  [Unmarshal] is
    [viper.Unmarshal] on the zero [Config], after the flags have been
    declared and parsed and the environment bound: the configuration it
    leaves and its error.  [Parse] is [url.Parse], [None] when it returns
    an error.  [ParseLevel] is [logrus.ParseLevel], [None] when it
    returns an error. *)
Record Process := {
  BindPFlags : option string;
  Unmarshal : Config * option string;
  Parse : string → option URL;
  ParseLevel : string → option string
}.

(** [*configURI = *url] for the pointer into the configuration that
    stands for the feed [configURI]. *)
Definition setURI (config : Config) (configURI : Feed) (url : URL) : Config :=
  match configURI with
  | DeparturesFeed =>
      {| DeparturesURIStr := DeparturesURIStr config;
         DeparturesRefresh := DeparturesRefresh config;
         DeparturesURI := url;
         ParkingsURIStr := ParkingsURIStr config;
         ParkingsRefresh := ParkingsRefresh config;
         ParkingsURI := ParkingsURI config;
         EquipmentsURIStr := EquipmentsURIStr config;
         EquipmentsRefresh := EquipmentsRefresh config;
         EquipmentsURI := EquipmentsURI config;
         JSONLog := JSONLog config; LogLevel := LogLevel config |}
  | ParkingsFeed =>
      {| DeparturesURIStr := DeparturesURIStr config;
         DeparturesRefresh := DeparturesRefresh config;
         DeparturesURI := DeparturesURI config;
         ParkingsURIStr := ParkingsURIStr config;
         ParkingsRefresh := ParkingsRefresh config;
         ParkingsURI := url;
         EquipmentsURIStr := EquipmentsURIStr config;
         EquipmentsRefresh := EquipmentsRefresh config;
         EquipmentsURI := EquipmentsURI config;
         JSONLog := JSONLog config; LogLevel := LogLevel config |}
  | EquipmentsFeed =>
      {| DeparturesURIStr := DeparturesURIStr config;
         DeparturesRefresh := DeparturesRefresh config;
         DeparturesURI := DeparturesURI config;
         ParkingsURIStr := ParkingsURIStr config;
         ParkingsRefresh := ParkingsRefresh config;
         ParkingsURI := ParkingsURI config;
         EquipmentsURIStr := EquipmentsURIStr config;
         EquipmentsRefresh := EquipmentsRefresh config;
         EquipmentsURI := url;
         JSONLog := JSONLog config; LogLevel := LogLevel config |}
  end.

(** The URL of a feed in the configuration, and the string it is
    configured by. *)
Definition feedURI (config : Config) (f : Feed) : URL :=
  match f with
  | DeparturesFeed => DeparturesURI config
  | ParkingsFeed => ParkingsURI config
  | EquipmentsFeed => EquipmentsURI config
  end.

Definition feedURIStr (config : Config) (f : Feed) : string :=
  match f with
  | DeparturesFeed => DeparturesURIStr config
  | ParkingsFeed => ParkingsURIStr config
  | EquipmentsFeed => EquipmentsURIStr config
  end.

(** The body of the [range] loop of [GetConfig], over the entries of the
    map in the order they are visited. *)
Fixpoint parseURIs (parse : string → option URL) (entries : list (string * Feed))
    (config : Config) : Config * list event :=
  match entries with
  | [] => (config, [])
  | (configURIStr, configURI) :: rest =>
      match parse configURIStr with
      | None =>
          let '(config, evs) := parseURIs parse rest config in
          (config, EvLog "error" ("Unable to parse data url: " +:+ configURIStr) :: evs)
      | Some url => parseURIs parse rest (setURI config configURI url)
      end
  end.

(** The elements of the composite literal of [GetConfig], in the order
    they are written. *)
Definition literal (config : Config) : list (string * Feed) :=
  [ (DeparturesURIStr config, DeparturesFeed);
    (ParkingsURIStr config, ParkingsFeed);
    (EquipmentsURIStr config, EquipmentsFeed) ].

Section GetConfig.
(** The map of the [range] loop is written as a composite literal whose
    keys are not constants.  The language leaves open which element a key
    written twice ends up with, and in which order [range] visits the
    entries. *)
Variable mapLiteral : list (string * Feed) → gmap string Feed.
Variable rangeURIs : gmap string Feed → list (string * Feed).

Definition GetConfig (p : Process) : Config * option configError * list event :=
  let config := zeroConfig in
  match BindPFlags p with
  | Some err => (config, Some (Wrap err "Impossible to parse flags"), [])
  | None =>
      match Unmarshal p with
      | (config, Some err) => (config, Some (Wrap err "Unmarshalling of flag failed"), [])
      | (config, None) =>
          if noneOf [DeparturesURIStr config; ParkingsURIStr config; EquipmentsURIStr config]
          then (config,
                Some (New "no data provided at all. Please provide at lease one type of data"),
                [])
          else
            let '(config, evs) :=
              parseURIs (Parse p) (rangeURIs (mapLiteral (literal config))) config in
            (config, None, evs)
      end
  end.
End GetConfig.

(** ** Stand-ins for the declarations outside [loader.go]

    Concrete consumers, equipment records, decoder and worlds, to run the
    loaders on. *)
Module standin.

(** Modelled from the spec: the departure record, a "fixed 8-field
    positional record per line: line code, station code, stop-point code,
    destination label, direction indicator, a date string, an hour
    string, and a free-form flag/category field". *)
Record Departure := {
  dep_Line : string;
  dep_Station : string;
  dep_Stop : string;
  dep_Destination : string;
  dep_Direction : string;
  dep_Date : string;
  dep_Hour : string;
  dep_Category : string
}.

Definition NewDeparture (line : list string) : option Departure :=
  match line with
  | [l; st; sp; de; di; da; ho; ca] =>
      Some {| dep_Line := l; dep_Station := st; dep_Stop := sp; dep_Destination := de;
              dep_Direction := di; dep_Date := da; dep_Hour := ho; dep_Category := ca |}
  | _ => None
  end.

(** Modelled from the spec: the departures variant of the record
    consumer, an "accumulator with the capability set {consume one parsed
    line, finalize accumulated data}": a line becomes a departure record
    added to the records accumulated, finalizing leaves them as they are. *)
Record departureLineConsumer := { data : list Departure }.

Definition makeDepartureLineConsumer : departureLineConsumer := {| data := [] |}.

#[global] Instance departure_LineConsumer : LineConsumer departureLineConsumer := {|
  Consume c line _ :=
    match NewDeparture line with
    | Some d => ({| data := data c ++ [d] |}, None)
    | None => (c, Some (ErrConsume "departure: eight fields expected"))
    end;
  Terminate c := c
|}.

(** Modelled from the spec: the parking record, a "variable-field-count
    record", and the parkings variant of the record consumer. *)
Record Parking := { park_Fields : list string }.
Record parkingLineConsumer := { parkings : list Parking }.

Definition makeParkingLineConsumer : parkingLineConsumer := {| parkings := [] |}.

#[global] Instance parking_LineConsumer : LineConsumer parkingLineConsumer := {|
  Consume c line _ := ({| parkings := parkings c ++ [{| park_Fields := line |}] |}, None);
  Terminate c := c
|}.

(** Modelled from the spec: the equipment element of the document and
    the equipment detail record, with "identifier, containing station and
    line identifiers, current operational status, and a single
    reconstructed timestamp"; the record of an element is built "carrying
    its own fields plus the shared updated_at". *)
Record EquipmentSource := {
  src_ID : string;
  src_Station : string;
  src_Line : string;
  src_Status : string
}.

Record EquipmentDetail := {
  ID : string;
  Station : string;
  Line : string;
  Status : string;
  UpdatedAt : time.Time
}.

Definition NewEquipmentDetail (e : EquipmentSource) (updatedAt : time.Time)
    (location : time.Location) : result EquipmentDetail :=
  Ok {| ID := src_ID e; Station := src_Station e; Line := src_Line e;
        Status := src_Status e; UpdatedAt := updatedAt |}.

(** A decoder that knows the documents of a table: for each, the
    encoding its declaration names and the tree it decodes to. *)
Definition documents : Type := list (string * (string * Root EquipmentSource)).

Fixpoint find (docs : documents) (file : string) : option (string * Root EquipmentSource) :=
  match docs with
  | [] => None
  | (f, d) :: rest => if String.eqb f file then Some d else find rest file
  end.

Definition xmlEncoding (docs : documents) (file : string) : string :=
  match find docs file with
  | Some (enc, _) => enc
  | None => EmptyString
  end.

Definition xmlUnmarshal (docs : documents) (file : string) : result (Root EquipmentSource) :=
  match find docs file with
  | Some (_, root) => Ok root
  | None => Err (ErrXml "syntax error")
  end.

(** Visiting a map in the order of its keys. *)
Definition mapRange (m : gmap string EquipmentDetail) : list (string * EquipmentDetail) :=
  map_to_list m.

(** The entries of the Europe/Paris table around 2024: local mean time
    before everything, then CET from 2023-10-29T01:00:00Z, CEST from
    2024-03-31T01:00:00Z and CET again from 2024-10-27T01:00:00Z. *)
Definition Europe_Paris : time.Location :=
  {| time.name := "Europe/Paris";
     time.zone0 := 561;
     time.tx := [ {| time.when := 1698541200; time.offset := 3600 |};
                  {| time.when := 1711846800; time.offset := 7200 |};
                  {| time.when := 1729990800; time.offset := 3600 |} ] |}.

(** A world with one local file and the time zone above. *)
Definition world (path content : string) : World :=
  {| readFile p := if String.eqb p path then Ok content else Err (ErrIO "no such file");
     sftpGet _ := Err (ErrIO "connection refused");
     LoadLocation n :=
       if String.eqb n "Europe/Paris" then Ok Europe_Paris else Err (ErrLoadLocation n);
     elapsed := 1500000 |}.

Definition fileURI (path : string) : URL :=
  {| Scheme := "file"; Username := EmptyString; Password := EmptyString;
     Host := EmptyString; Path := path |}.

Definition noMetrics : Metrics :=
  {| departureLoadingDuration := []; departureLoadingErrors := 0;
     parkingsLoadingDuration := []; parkingsLoadingErrors := 0;
     equipmentsLoadingDuration := []; equipmentsLoadingErrors := 0 |}.

(** Lines of text, each ended by a line feed. *)
Fixpoint text (lines : list string) : string :=
  match lines with
  | [] => EmptyString
  | l :: ls => l +:+ String LF (text ls)
  end.

(** Snapshots of an earlier refresh. *)
Definition oldDeparture : Departure :=
  {| dep_Line := "C3"; dep_Station := "0412"; dep_Stop := "41201";
     dep_Destination := "Laurent Bonnevay"; dep_Direction := "0";
     dep_Date := "2024-03-09"; dep_Hour := "23:12:00"; dep_Category := "E" |}.

Definition oldParking : Parking := {| park_Fields := ["P1"; "Gorge de Loup"; "120"] |}.

Definition oldEquipment : EquipmentDetail :=
  {| ID := "821"; Station := "Bellecour"; Line := "A"; Status := "available";
     UpdatedAt := time.Date 2024 3 9 23 0 0 0 Europe_Paris |}.

(** Two equipment documents: the first declares ISO-8859-1 and has the
    equipment 821 twice, under two stations; the second declares UTF-16. *)
Definition latin1Document : string :=
  "<?xml version='1.0' encoding='ISO-8859-1'?><root><info/><data/></root>".

Definition utf16Document : string :=
  "<?xml version='1.0' encoding='UTF-16'?><root><info/><data/></root>".

Definition sampleRoot : Root EquipmentSource :=
  {| Root_Info := {| Date := "2024-03-10"; Hour := "07:15:30" |};
     Root_Data :=
       {| Lines :=
            [ {| Stations :=
                   [ {| Equipments :=
                          [ {| src_ID := "821"; src_Station := "Bellecour"; src_Line := "A";
                               src_Status := "available" |};
                            {| src_ID := "822"; src_Station := "Bellecour"; src_Line := "A";
                               src_Status := "available" |} ] |};
                     {| Equipments :=
                          [ {| src_ID := "821"; src_Station := "Perrache"; src_Line := "A";
                               src_Status := "out of order" |} ] |} ] |} ] |} |}.

Definition docs : documents :=
  [ (latin1Document, ("ISO-8859-1", sampleRoot)); (utf16Document, ("UTF-16", sampleRoot)) ].

(** A world in which nothing can be retrieved. *)
Definition offline : World :=
  {| readFile _ := Err (ErrIO "no such file");
     sftpGet _ := Err (ErrIO "connection refused");
     LoadLocation n :=
       if String.eqb n "Europe/Paris" then Ok Europe_Paris else Err (ErrLoadLocation n);
     elapsed := 1500000 |}.

(** A composite literal that keeps, for a key written twice, the element
    written last, and a [range] in the order of the keys. *)
Definition mapLiteral (l : list (string * Feed)) : gmap string Feed :=
  list_to_map (reverse l).

Definition rangeURIs (m : gmap string Feed) : list (string * Feed) := map_to_list m.

(** A URL parser that knows the strings of a table, and a process
    configured with the strings of the three feeds. *)
Fixpoint parseURL (urls : list (string * URL)) (s : string) : option URL :=
  match urls with
  | [] => None
  | (str, url) :: rest => if String.eqb s str then Some url else parseURL rest s
  end.

Definition urls : list (string * URL) :=
  [ (EmptyString, zeroURL);
    ("file:///feeds/departures.txt", fileURI "/feeds/departures.txt");
    ("file:///feeds/parkings.csv", fileURI "/feeds/parkings.csv");
    ("file:///feeds/equipments.xml", fileURI "/feeds/equipments.xml");
    ("file:///feeds/all.txt", fileURI "/feeds/all.txt") ].

Definition process (departures parkings equipments : string) : Process :=
  {| BindPFlags := None;
     Unmarshal :=
       ({| DeparturesURIStr := departures; DeparturesRefresh := 30000000000;
           DeparturesURI := zeroURL;
           ParkingsURIStr := parkings; ParkingsRefresh := 30000000000;
           ParkingsURI := zeroURL;
           EquipmentsURIStr := equipments; EquipmentsRefresh := 30000000000;
           EquipmentsURI := zeroURL;
           JSONLog := false; LogLevel := "debug" |}, None);
     Parse := parseURL urls;
     ParseLevel l := if String.eqb l "debug" then Some "debug" else None |}.
End standin.

(** ** The equipment loader and the refresh cycles *)

Section sytralrt.
(** Declared in the files of the package other than [loader.go]: the two
    consumers with the field the refresh reads back, the equipment
    element and record with their identifiers and [NewEquipmentDetail],
    and the snapshot store. *)
Context {departureLineConsumer parkingLineConsumer : Type}.
Context `{!LineConsumer departureLineConsumer} `{!LineConsumer parkingLineConsumer}.
Context {DepartureData ParkingData : Type}.
Variable makeDepartureLineConsumer : departureLineConsumer.
Variable data : departureLineConsumer → DepartureData.
Variable makeParkingLineConsumer : parkingLineConsumer.
Variable parkings : parkingLineConsumer → ParkingData.
Context {EquipmentSource EquipmentDetail : Type}.
Variable ID : EquipmentDetail → string.
Variable srcID : EquipmentSource → string.
Variable NewEquipmentDetail :
  EquipmentSource → time.Time → time.Location → result EquipmentDetail.

(** [encoding/xml], as far as the loader drives it: the encoding named in
    the XML declaration of a document (empty when it names none), and the
    decoding of a document in UTF-8 into [Root]. *)
Variable xmlEncoding : string → string.
Variable xmlUnmarshal : string → result (Root EquipmentSource).

(** The order in which [range] visits a map: each entry once, in no
    particular order. *)
Variable mapRange : gmap string EquipmentDetail → list (string * EquipmentDetail).

(** Modelled from the spec: the snapshot store ([DataManager], declared
    outside [loader.go]) holds the current snapshot of each of the three
    feeds, and [replace] makes the records it is given the snapshot of
    its feed; here one field per feed and one [Update] per field. *)
Record DataManager := {
  departures : DepartureData;
  parkingsData : ParkingData;
  equipments : list EquipmentDetail
}.

Definition UpdateDepartures (manager : DataManager) (d : DepartureData) : DataManager :=
  {| departures := d; parkingsData := parkingsData manager; equipments := equipments manager |}.
Definition UpdateParkings (manager : DataManager) (p : ParkingData) : DataManager :=
  {| departures := departures manager; parkingsData := p; equipments := equipments manager |}.
Definition UpdateEquipments (manager : DataManager) (e : list EquipmentDetail) : DataManager :=
  {| departures := departures manager; parkingsData := parkingsData manager; equipments := e |}.

(** The store and the collectors: the state a refresh cycle acts on. *)
Record State := { manager : DataManager; metrics : Metrics }.

(** *** [LoadXmlData] *)

Definition lower (c : ascii) : ascii :=
  let n := nat_of_ascii c in
  if (65 <=? n)%nat && (n <=? 90)%nat then ascii_of_nat (n + 32) else c.

Fixpoint EqualFold (s t : string) : bool :=
  match s, t with
  | EmptyString, EmptyString => true
  | String a s', String b t' => Ascii.eqb (lower a) (lower b) && EqualFold s' t'
  | _, _ => false
  end.

(** [Decoder.Decode] with a [CharsetReader]: a declared encoding other
    than UTF-8 is handed to [CharsetReader], whose error ends the
    decoding. *)
Definition Decode (CharsetReader : string → string → result string) (XMLdata : string)
    : result (Root EquipmentSource) :=
  let enc := xmlEncoding XMLdata in
  if String.eqb enc EmptyString || EqualFold enc "utf-8" then xmlUnmarshal XMLdata
  else
    match CharsetReader enc XMLdata with
    | Err e => Err (ErrXmlCharset enc e)
    | Ok input => xmlUnmarshal input
    end.

(** The three nested [range] loops, innermost first. *)
Fixpoint rangeEquipments (updatedAt : time.Time) (location : time.Location)
    (es : list EquipmentSource) (equipments : gmap string EquipmentDetail)
    : result (gmap string EquipmentDetail) :=
  match es with
  | [] => Ok equipments
  | e :: es' =>
      match NewEquipmentDetail e updatedAt location with
      | Err err => Err err
      | Ok ed => rangeEquipments updatedAt location es' (<[ID ed := ed]> equipments)
      end
  end.

Fixpoint rangeStations (updatedAt : time.Time) (location : time.Location)
    (ss : list (Station EquipmentSource)) (equipments : gmap string EquipmentDetail)
    : result (gmap string EquipmentDetail) :=
  match ss with
  | [] => Ok equipments
  | s :: ss' =>
      match rangeEquipments updatedAt location (Equipments s) equipments with
      | Err err => Err err
      | Ok equipments => rangeStations updatedAt location ss' equipments
      end
  end.

Fixpoint rangeLines (updatedAt : time.Time) (location : time.Location)
    (ls : list (Line EquipmentSource)) (equipments : gmap string EquipmentDetail)
    : result (gmap string EquipmentDetail) :=
  match ls with
  | [] => Ok equipments
  | l :: ls' =>
      match rangeStations updatedAt location (Stations l) equipments with
      | Err err => Err err
      | Ok equipments => rangeLines updatedAt location ls' equipments
      end
  end.

(** [built updatedAt location e ed]: [ed] is the record the loader builds
    from the element [e]. *)
Definition built (updatedAt : time.Time) (location : time.Location)
    (e : EquipmentSource) (ed : EquipmentDetail) : Prop :=
  NewEquipmentDetail e updatedAt location = Ok ed.

(** The assignments [equipments[ed.ID] = *ed] for the records [eds], in
    order. *)
Definition assign (equipments : gmap string EquipmentDetail) (eds : list EquipmentDetail)
    : gmap string EquipmentDetail :=
  foldl (λ m ed, <[ID ed := ed]> m) equipments eds.

(** [file] is a buffer in memory: [ioutil.ReadAll] returns its bytes. *)
Definition LoadXmlData (w : World) (file : string) : result (list EquipmentDetail) :=
  match LoadLocation w "Europe/Paris" with
  | Err e => Err e
  | Ok location =>
      let XMLdata := file in
      match Decode getCharsetReader XMLdata with
      | Err e => Err e
      | Ok root =>
          match CalculateDate (Root_Info root) location with
          | Err e => Err e
          | Ok updatedAt =>
              match rangeLines updatedAt location (Lines (Root_Data root)) ∅ with
              | Err e => Err e
              | Ok equipments => Ok (snd <$> mapRange equipments)
              end
          end
      end
  end.

(** *** The refresh cycles *)

Definition failed (f : Feed) (st : State) (err : error) : State * option error :=
  ({| manager := manager st; metrics := Inc f (metrics st) |}, Some err).

Definition RefreshDepartures (w : World) (st : State) (uri : URL) : State * option error :=
  match getFile w uri with
  | Err err => failed DeparturesFeed st err
  | Ok file =>
      let departureConsumer := makeDepartureLineConsumer in
      match LoadData w file departureConsumer with
      | (_, Some err) => failed DeparturesFeed st err
      | (departureConsumer, None) =>
          ({| manager := UpdateDepartures (manager st) (data departureConsumer);
              metrics := Observe DeparturesFeed (elapsed w) (metrics st) |}, None)
      end
  end.

Definition RefreshParkings (w : World) (st : State) (uri : URL) : State * option error :=
  match getFile w uri with
  | Err err => failed ParkingsFeed st err
  | Ok file =>
      let parkingsConsumer := makeParkingLineConsumer in
      let loadDataOptions :=
        {| delimiter := ";"%char; nbFields := 0; skipFirstLine := true |} in
      match LoadDataWithOptions w file parkingsConsumer loadDataOptions with
      | (_, Some err) => failed ParkingsFeed st err
      | (parkingsConsumer, None) =>
          ({| manager := UpdateParkings (manager st) (parkings parkingsConsumer);
              metrics := Observe ParkingsFeed (elapsed w) (metrics st) |}, None)
      end
  end.

Definition RefreshEquipments (w : World) (st : State) (uri : URL) : State * option error :=
  match getFile w uri with
  | Err err => failed EquipmentsFeed st err
  | Ok file =>
      match LoadXmlData w file with
      | Err err => failed EquipmentsFeed st err
      | Ok equipments =>
          ({| manager := UpdateEquipments (manager st) equipments;
              metrics := Observe EquipmentsFeed (elapsed w) (metrics st) |}, None)
      end
  end.

(** *** The refresh loops of [main.go]

    A loop is followed for [n] iterations; [w k] is the world its [k]-th
    cycle finds.  The result tells whether the loop has returned or is
    still going, the state it has reached and what it did. *)

Definition logError (msg : string) (err : option error) : list event :=
  match err with
  | Some _ => [EvLog "error" msg]
  | None => []
  end.

Fixpoint departureIterations (n : nat) (w : nat → World) (st : State) (departuresURI : URL)
    (departuresRefresh : Z) : State * list event :=
  match n with
  | O => (st, [])
  | S n' =>
      let '(st, err) := RefreshDepartures (w O) st departuresURI in
      let '(st', evs) :=
        departureIterations n' (λ k, w (S k)) st departuresURI departuresRefresh in
      (st', EvRefresh DeparturesFeed err
            :: logError "Error while reloading departures data: " err
            ++ EvLog "debug" "Departure data updated" :: EvSleep departuresRefresh :: evs)
  end.

Definition RefreshDepartureLoop (n : nat) (w : nat → World) (st : State) (departuresURI : URL)
    (departuresRefresh : Z) : progress * State * list event :=
  if time.Seconds_lt_1 departuresRefresh then
    (Returned, st, [EvLog "info" "data refreshing is disabled"])
  else
    let '(st', evs) := departureIterations n w st departuresURI departuresRefresh in
    (Looping, st', evs).

Fixpoint RefreshParkingLoop (n : nat) (w : nat → World) (st : State) (parkingsURI : URL)
    (parkingsRefresh : Z) : progress * State * list event :=
  match n with
  | O => (Looping, st, [])
  | S n' =>
      let '(st, err) := RefreshParkings (w O) st parkingsURI in
      let '(p, st', evs) :=
        RefreshParkingLoop n' (λ k, w (S k)) st parkingsURI parkingsRefresh in
      (p, st', EvRefresh ParkingsFeed err
               :: logError "Error while reloading parking data: " err
               ++ EvLog "debug" "Parking data updated" :: EvSleep parkingsRefresh :: evs)
  end.

Fixpoint RefreshEquipmentLoop (n : nat) (w : nat → World) (st : State) (equipmentsURI : URL)
    (equipmentsRefresh : Z) : progress * State * list event :=
  match n with
  | O => (Looping, st, [])
  | S n' =>
      let '(st, err) := RefreshEquipments (w O) st equipmentsURI in
      let '(p, st', evs) :=
        RefreshEquipmentLoop n' (λ k, w (S k)) st equipmentsURI equipmentsRefresh in
      (p, st', EvRefresh EquipmentsFeed err
               :: logError "Error while reloading equipment data: " err
               ++ EvLog "debug" "Equipment data updated" :: EvSleep equipmentsRefresh :: evs)
  end.

(** The three loops have one shape: [n] iterations around a refresh
    cycle, with the feed and the two messages of the loop. *)
Fixpoint iterations (refresh : World → State → State * option error) (f : Feed)
    (msg dbg : string) (n : nat) (w : nat → World) (st : State) (d : Z)
    : State * list event :=
  match n with
  | O => (st, [])
  | S n' =>
      let '(st, err) := refresh (w O) st in
      let '(st', evs) := iterations refresh f msg dbg n' (λ k, w (S k)) st d in
      (st', EvRefresh f err :: logError msg err ++ EvLog "debug" dbg :: EvSleep d :: evs)
  end.

(** *** [main], up to the start of the loops

    [main] is followed up to its [go] statements: the configuration, the
    logger and the three eager loads.  [w 0], [w 1] and [w 2] are the
    worlds the three loads find. *)

(** The zero values of the two snapshots declared outside [loader.go]:
    what [&DataManager{}] holds for the departures and the parkings. *)
Variable noDepartures : DepartureData.
Variable noParkings : ParkingData.


(** How the map of [GetConfig] is built and visited. *)
Variable mapLiteral : list (string * Feed) → gmap string Feed.
Variable rangeURIs : gmap string Feed → list (string * Feed).





(** What belongs to the feeds other than the departures, the parkings,
    the equipments: their snapshots and their collectors. *)
Definition besideDepartures (st : State) :=
  (parkingsData (manager st), equipments (manager st),
   parkingsLoadingDuration (metrics st), parkingsLoadingErrors (metrics st),
   equipmentsLoadingDuration (metrics st), equipmentsLoadingErrors (metrics st)).
Definition besideParkings (st : State) :=
  (departures (manager st), equipments (manager st),
   departureLoadingDuration (metrics st), departureLoadingErrors (metrics st),
   equipmentsLoadingDuration (metrics st), equipmentsLoadingErrors (metrics st)).
Definition besideEquipments (st : State) :=
  (departures (manager st), parkingsData (manager st),
   departureLoadingDuration (metrics st), departureLoadingErrors (metrics st),
   parkingsLoadingDuration (metrics st), parkingsLoadingErrors (metrics st)).

(** * Properties *)

(** ** The reader *)

Arguments csv.checkFields : simpl never.

Lemma unread_step (rd : csv.Reader) raw rest res n :
  csv.unread rd = raw :: rest →
  csv.checkFields (csv.FieldsPerRecord rd) raw = (res, n) →
  ∃ rd', csv.Read rd = (res, rd') ∧ csv.FieldsPerRecord rd' = n ∧ csv.unread rd' = rest.
Proof.
  intros Hu Hc. unfold csv.Read. rewrite Hu, Hc. eexists; split; [reflexivity|].
  split; [reflexivity|]. unfold csv.unread in *; simpl.
  rewrite <- Nat.add_1_r, <- drop_drop. by rewrite Hu.
Qed.

(** The loop of [LoadDataWithOptions] is the loop on [reader.Read()]. *)
Lemma readLoop_Read {C : Type} `{!LineConsumer C} location skip (c : C) (rd : csv.Reader) :
  readLoop location (csv.FieldsPerRecord rd) skip c (csv.unread rd) =
  match csv.Read rd with
  | ((_, Some EOF), _) => (Terminate c, None)
  | ((_, Some e), _) => (c, Some e)
  | ((line, None), rd') =>
      if skip then readLoop location (csv.FieldsPerRecord rd') false c (csv.unread rd')
      else match Consume c line location with
           | (c', Some e) => (c', Some e)
           | (c', None) => readLoop location (csv.FieldsPerRecord rd') skip c' (csv.unread rd')
           end
  end.
Proof.
  destruct (csv.unread rd) as [|raw rest] eqn:Hu.
  - unfold csv.Read. by rewrite Hu.
  - simpl. destruct (csv.checkFields (csv.FieldsPerRecord rd) raw) as [[line err] n] eqn:Hc.
    destruct (unread_step rd raw rest _ _ Hu Hc) as (rd' & -> & -> & ->).
    destruct err as [e|]; [|done].
    assert (∃ pe, e = ErrCsv pe) as [pe ->]; [|done].
    unfold csv.checkFields in Hc. destruct raw as [dst [pe|]];
      repeat case_match; simplify_eq/=; eauto.
Qed.

Lemma checkFields_wellFormed (n : nat) raw :
  n ≠ 0%nat → wellFormed n raw →
  csv.checkFields (Z.of_nat n) raw = ((fst raw, None), Z.of_nat n).
Proof.
  intros Hn [Herr Hlen]. destruct raw as [dst err]; simpl in *; subst.
  unfold csv.checkFields.
  destruct (Z.ltb_spec 0 (Z.of_nat (length dst))); [|lia].
  by rewrite Z.eqb_refl.
Qed.


(** Whatever the setting, a record is passed on only if it was read
    without error, and then its fields are passed on as they are. *)
Lemma checkFields_None fpr raw line n :
  csv.checkFields fpr raw = ((line, None), n) → raw = (line, None).
Proof.
  unfold csv.checkFields. destruct raw as [dst [pe|]];
    repeat case_match; intros; simplify_eq/=; done.
Qed.

Lemma checkFields_passed (n : nat) dst line m :
  n ≠ 0%nat →
  csv.checkFields (Z.of_nat n) (dst, None) = ((line, None), m) →
  m = Z.of_nat n ∧ length dst = n.
Proof.
  intros Hn. unfold csv.checkFields.
  destruct (Z.ltb_spec 0 (Z.of_nat n)); [|lia].
  destruct (Z.eqb_spec (Z.of_nat (length dst)) (Z.of_nat n)); simpl; [|done].
  intros; simplify_eq. split; [done|lia].
Qed.

Lemma checkFields_first dst :
  csv.checkFields 0 (dst, None) = ((dst, None), Z.of_nat (length dst)).
Proof. done. Qed.

(** ** The loop of the delimited loader *)

Section readLoop.
Context {C : Type} `{!LineConsumer C}.
Implicit Types (c : C) (src : list csv.rawRecord).

(** When every record passes the reader, the load is the consumption
    of the records in order, then [Terminate]. *)
Lemma readLoop_wellFormed location (n : nat) c src :
  n ≠ 0%nat → Forall (wellFormed n) src →
  readLoop location (Z.of_nat n) false c src
  = finish (consumeAll location c (fst <$> src)).
Proof.
  intros Hn Hsrc. revert c. induction Hsrc as [|raw src Hraw _ IH]; intros c; [done|].
  simpl. rewrite (checkFields_wellFormed n raw Hn Hraw).
  destruct (Consume c raw.1 location) as [c' [e|]]; [done|]. apply IH.
Qed.


Lemma finish_Some (res : C * option error) e :
  snd res = Some e → finish res = res.
Proof. by destruct res as [c [e'|]]. Qed.

Lemma refuse_is_error e (res : C * option error) :
  ∃ e', snd (refuse e res) = Some e'.
Proof. destruct res as [c [e'|]]; simpl; eauto. Qed.

(** With a positive field count, a record read without error but with
    another number of fields makes the load fail. *)
Lemma readLoop_fails location (n : nat) skip c src dst :
  n ≠ 0%nat → (dst, None) ∈ src → length dst ≠ n →
  ∃ e, snd (readLoop location (Z.of_nat n) skip c src) = Some e.
Proof.
  intros Hn Hin Hlen. revert skip c.
  induction src as [|raw src IH]; intros skip c; [by apply elem_of_nil in Hin|].
  simpl. destruct (csv.checkFields (Z.of_nat n) raw) as [[line err] m] eqn:Hc.
  destruct err as [e|]; [by eauto|].
  assert (raw = (line, None)) as -> by eauto using checkFields_None.
  destruct (checkFields_passed n line line m Hn Hc) as [-> Hline].
  apply elem_of_cons in Hin as [Heq|Hin]; [by simplify_eq|].
  destruct skip; [by apply IH|].
  destruct (Consume c line location) as [c' [e|]]; [by eauto|]. by apply IH.
Qed.

(** The same with the error named, when the consumer takes every line
    of [n] fields. *)
Lemma readLoop_fails_csv location (n : nat) skip c src dst :
  n ≠ 0%nat → (dst, None) ∈ src → length dst ≠ n →
  (∀ c' line, length line = n → snd (Consume c' line location) = None) →
  ∃ pe, snd (readLoop location (Z.of_nat n) skip c src) = Some (ErrCsv pe).
Proof.
  intros Hn Hin Hlen Hacc. revert skip c.
  induction src as [|raw src IH]; intros skip c; [by apply elem_of_nil in Hin|].
  simpl. destruct (csv.checkFields (Z.of_nat n) raw) as [[line err] m] eqn:Hc.
  destruct err as [e|].
  { unfold csv.checkFields in Hc. destruct raw as [d [pe|]];
      repeat case_match; simplify_eq/=; eauto. }
  assert (raw = (line, None)) as -> by eauto using checkFields_None.
  destruct (checkFields_passed n line line m Hn Hc) as [-> Hline].
  apply elem_of_cons in Hin as [Heq|Hin]; [by simplify_eq|].
  destruct skip; [by apply IH|].
  specialize (Hacc c line Hline).
  destruct (Consume c line location) as [c' [e|]]; [done|]. by apply IH.
Qed.

(** No record: the loop ends at once and the consumer is finalized. *)
Lemma readLoop_nil location fpr skip c :
  readLoop location fpr skip c [] = (Terminate c, None).
Proof. done. Qed.
End readLoop.

(** ** What the loader hands to the consumer *)

Section recorder.
Context {C : Type} `{!LineConsumer C}.
Implicit Types (c : C) (src : list csv.rawRecord) (log : list (list string)).

(** The loader treats a recorder as it treats the consumer inside it,
    and the log grows by the lines handed over: the records that follow
    the skipped one, up to the point where the load stops. *)
Lemma readLoop_recorder location fpr skip c log src :
  ∃ handed,
    readLoop location fpr skip ((c, log) : recorder C) src
    = ((fst (readLoop location fpr skip c src), log ++ handed),
       snd (readLoop location fpr skip c src))
    ∧ handed `prefix_of` (fst <$> (if skip then tail src else src))
    ∧ (snd (readLoop location fpr skip c src) = None →
       handed = fst <$> (if skip then tail src else src)).
Proof.
  revert fpr skip c log. induction src as [|raw src IH]; intros fpr skip c log.
  - exists []. rewrite app_nil_r. by destruct skip.
  - simpl. destruct (csv.checkFields fpr raw) as [[line err] n] eqn:Hc.
    destruct err as [e|].
    { exists []. rewrite app_nil_r. split_and!; [done|apply prefix_nil|done]. }
    assert (raw = (line, None)) as -> by eauto using checkFields_None.
    destruct skip.
    { destruct (IH n false c log) as (handed & -> & Hpre & Hall). by exists handed. }
    simpl. destruct (Consume c line location) as [c' [e|]].
    { exists [line]. split_and!; [done| |done]. by apply prefix_cons, prefix_nil. }
    destruct (IH n false c' (log ++ [line])) as (handed & -> & Hpre & Hall).
    exists (line :: handed). rewrite <- app_assoc. split_and!; [done| |].
    + by apply prefix_cons.
    + intros Hnone. by rewrite Hall.
Qed.
End recorder.

(** ** [LoadDataWithOptions] *)

Lemma LoadDataWithOptions_eq {C : Type} `{!LineConsumer C} w location file (c : C) options :
  LoadLocation w "Europe/Paris" = Ok location →
  LoadDataWithOptions w file c options
  = readLoop location (nbFields options) (skipFirstLine options) c
      (csv.records (delimiter options) file).
Proof. intros Hloc. unfold LoadDataWithOptions. by rewrite Hloc. Qed.

Lemma LoadDataWithOptions_no_location {C : Type} `{!LineConsumer C} w e file (c : C) options :
  LoadLocation w "Europe/Paris" = Err e →
  LoadDataWithOptions w file c options = (c, Some e).
Proof. intros Hloc. unfold LoadDataWithOptions. by rewrite Hloc. Qed.

(** ** The records of the reader have at least one field *)




Lemma records_empty comma : csv.records comma EmptyString = [].
Proof. done. Qed.

(** ** The refresh cycles *)

Implicit Types (w : World) (st : State) (uri : URL).

Lemma RefreshDepartures_Err w st uri e :
  getFile w uri = Err e → RefreshDepartures w st uri = failed DeparturesFeed st e.
Proof. intros Hf. unfold RefreshDepartures. by rewrite Hf. Qed.

Lemma RefreshDepartures_load w st uri file :
  getFile w uri = Ok file →
  RefreshDepartures w st uri =
  match LoadData w file makeDepartureLineConsumer with
  | (_, Some err) => failed DeparturesFeed st err
  | (c, None) =>
      ({| manager := UpdateDepartures (manager st) (data c);
          metrics := Observe DeparturesFeed (elapsed w) (metrics st) |}, None)
  end.
Proof. intros Hf. unfold RefreshDepartures. by rewrite Hf. Qed.

Lemma RefreshParkings_Err w st uri e :
  getFile w uri = Err e → RefreshParkings w st uri = failed ParkingsFeed st e.
Proof. intros Hf. unfold RefreshParkings. by rewrite Hf. Qed.

Lemma RefreshParkings_load w st uri file :
  getFile w uri = Ok file →
  RefreshParkings w st uri =
  match LoadDataWithOptions w file makeParkingLineConsumer parkingOptions with
  | (_, Some err) => failed ParkingsFeed st err
  | (c, None) =>
      ({| manager := UpdateParkings (manager st) (parkings c);
          metrics := Observe ParkingsFeed (elapsed w) (metrics st) |}, None)
  end.
Proof. intros Hf. unfold RefreshParkings. by rewrite Hf. Qed.

Lemma RefreshEquipments_Err w st uri e :
  getFile w uri = Err e → RefreshEquipments w st uri = failed EquipmentsFeed st e.
Proof. intros Hf. unfold RefreshEquipments. by rewrite Hf. Qed.

Lemma RefreshEquipments_load w st uri file :
  getFile w uri = Ok file →
  RefreshEquipments w st uri =
  match LoadXmlData w file with
  | Err err => failed EquipmentsFeed st err
  | Ok equipments =>
      ({| manager := UpdateEquipments (manager st) equipments;
          metrics := Observe EquipmentsFeed (elapsed w) (metrics st) |}, None)
  end.
Proof. intros Hf. unfold RefreshEquipments. by rewrite Hf. Qed.

(** A cycle that returns an error has counted it and has left the store
    alone. *)
Lemma RefreshDepartures_failed w st uri st' e :
  RefreshDepartures w st uri = (st', Some e) → st' = fst (failed DeparturesFeed st e).
Proof.
  unfold RefreshDepartures. destruct (getFile w uri) as [file|e']; [|by intros [= <- <-]].
  destruct (LoadData w file makeDepartureLineConsumer) as [c [e'|]]; [|done].
  by intros [= <- <-].
Qed.

Lemma RefreshParkings_failed w st uri st' e :
  RefreshParkings w st uri = (st', Some e) → st' = fst (failed ParkingsFeed st e).
Proof.
  unfold RefreshParkings. destruct (getFile w uri) as [file|e']; [|by intros [= <- <-]].
  destruct (LoadDataWithOptions w file makeParkingLineConsumer _) as [c [e'|]]; [|done].
  by intros [= <- <-].
Qed.

Lemma RefreshEquipments_failed w st uri st' e :
  RefreshEquipments w st uri = (st', Some e) → st' = fst (failed EquipmentsFeed st e).
Proof.
  unfold RefreshEquipments. destruct (getFile w uri) as [file|e']; [|by intros [= <- <-]].
  destruct (LoadXmlData w file) as [l|e']; [done|]. by intros [= <- <-].
Qed.

Lemma CalculateDate_parse info location :
  time.parseDate (Date info) = None ∨ time.parseClock (Hour info) = None →
  is_Err (CalculateDate info location) = true.
Proof.
  unfold CalculateDate, time.ParseInLocation. intros [H|H]; rewrite H; [done|].
  by destruct (time.parseDate (Date info)) as [[[??]?]|].
Qed.

(** C1. A refresh cycle of any of the three feeds that fails, at the
    retrieval of the bytes, in the delimited loader, in the decoding of
    the document or in the parsing of its date and hour, returns the
    error, and a cycle that returns an error has counted it for its feed
    and leaves the store exactly as it was: the snapshot of every feed is
    the one visible before. *)
Theorem failed_refresh_keeps_snapshot w st uri :
  (∀ e, getFile w uri = Err e →
     snd (RefreshDepartures w st uri) = Some e
     ∧ snd (RefreshParkings w st uri) = Some e
     ∧ snd (RefreshEquipments w st uri) = Some e)
  ∧ (∀ file, getFile w uri = Ok file →
       (∀ c e, LoadData w file makeDepartureLineConsumer = (c, Some e) →
          snd (RefreshDepartures w st uri) = Some e)
       ∧ (∀ c e, LoadDataWithOptions w file makeParkingLineConsumer parkingOptions
                 = (c, Some e) →
            snd (RefreshParkings w st uri) = Some e)
       ∧ (∀ e, LoadXmlData w file = Err e → snd (RefreshEquipments w st uri) = Some e)
       ∧ (∀ location, LoadLocation w "Europe/Paris" = Ok location →
            (∀ e, Decode getCharsetReader file = Err e →
               snd (RefreshEquipments w st uri) = Some e)
            ∧ (∀ root, Decode getCharsetReader file = Ok root →
                time.parseDate (Date (Root_Info root)) = None
                ∨ time.parseClock (Hour (Root_Info root)) = None →
                ∃ e, snd (RefreshEquipments w st uri) = Some e)))
  ∧ (∀ st' e, RefreshDepartures w st uri = (st', Some e) →
       manager st' = manager st ∧ metrics st' = Inc DeparturesFeed (metrics st))
  ∧ (∀ st' e, RefreshParkings w st uri = (st', Some e) →
       manager st' = manager st ∧ metrics st' = Inc ParkingsFeed (metrics st))
  ∧ (∀ st' e, RefreshEquipments w st uri = (st', Some e) →
       manager st' = manager st ∧ metrics st' = Inc EquipmentsFeed (metrics st)).
Proof.
  split_and!.
  - intros e He.
    by rewrite (RefreshDepartures_Err _ _ _ _ He), (RefreshParkings_Err _ _ _ _ He),
      (RefreshEquipments_Err _ _ _ _ He).
  - intros file Hfile. split_and!.
    + intros c e Hl. by rewrite (RefreshDepartures_load _ _ _ _ Hfile), Hl.
    + intros c e Hl. by rewrite (RefreshParkings_load _ _ _ _ Hfile), Hl.
    + intros e Hl. by rewrite (RefreshEquipments_load _ _ _ _ Hfile), Hl.
    + intros location Hloc. split.
      * intros e Hd. rewrite (RefreshEquipments_load _ _ _ _ Hfile).
        unfold LoadXmlData. by rewrite Hloc, Hd.
      * intros root Hd Hp. rewrite (RefreshEquipments_load _ _ _ _ Hfile).
        unfold LoadXmlData. rewrite Hloc, Hd.
        apply (CalculateDate_parse _ location) in Hp.
        destruct (CalculateDate (Root_Info root) location); [done|by eauto].
  - intros st' e H. by rewrite (RefreshDepartures_failed _ _ _ _ _ H).
  - intros st' e H. by rewrite (RefreshParkings_failed _ _ _ _ _ H).
  - intros st' e H. by rewrite (RefreshEquipments_failed _ _ _ _ _ H).
Qed.

(** ** The departures: eight fields *)

(** C2, as the loader has it.  With the field count set to 8, a record
    with another number of fields makes the whole load fail: whatever the
    consumer, [LoadData] returns an error (a parse error of the reader
    when the consumer takes every line of eight fields) and the refresh
    cycle leaves the store as it was.  When every line is read without
    error into a record of eight fields, the load is the consumption of
    these records in order: it succeeds exactly when the consumer takes
    them all, and the refresh then stores what the consumer holds. *)
Theorem departures_eight_fields w location st uri file :
  LoadLocation w "Europe/Paris" = Ok location →
  getFile w uri = Ok file →
  (∀ dst, (dst, None) ∈ csv.records ";" file → length dst ≠ 8%nat →
     (∀ (C : Type) (H : LineConsumer C) (c : C),
        ∃ e, snd (LoadData w file c) = Some e
             ∧ ((∀ c' line, length line = 8%nat → snd (Consume c' line location) = None) →
                ∃ pe, e = ErrCsv pe))
     ∧ ∃ e, RefreshDepartures w st uri
            = ({| manager := manager st; metrics := Inc DeparturesFeed (metrics st) |},
               Some e))
  ∧ (Forall (wellFormed 8) (csv.records ";" file) →
     (∀ (C : Type) (H : LineConsumer C) (c : C),
        LoadData w file c
        = finish (consumeAll location c (fst <$> csv.records ";" file)))
     ∧ (∀ c, consumeAll location makeDepartureLineConsumer (fst <$> csv.records ";" file)
             = (c, None) →
          RefreshDepartures w st uri
          = ({| manager := UpdateDepartures (manager st) (data (Terminate c));
                metrics := Observe DeparturesFeed (elapsed w) (metrics st) |}, None))).
Proof.
  intros Hloc Hfile.
  assert (∀ (C : Type) (H : LineConsumer C) (c : C),
            LoadData w file c
            = readLoop location (Z.of_nat 8) false c (csv.records ";" file)) as Hload.
  { intros C H c. unfold LoadData. by rewrite (LoadDataWithOptions_eq _ location). }
  split.
  - intros dst Hin Hlen. split.
    + intros C H c. rewrite Hload.
      destruct (readLoop_fails location 8 false c _ dst ltac:(done) Hin Hlen) as [e He].
      exists e. split; [done|]. intros Hacc.
      destruct (readLoop_fails_csv location 8 false c _ dst ltac:(done) Hin Hlen Hacc)
        as [pe Hpe].
      exists pe. congruence.
    + rewrite (RefreshDepartures_load _ _ _ _ Hfile), Hload.
      destruct (readLoop_fails location 8 false makeDepartureLineConsumer _ dst
                  ltac:(done) Hin Hlen) as [e He].
      destruct (readLoop _ _ _ _ _) as [c oe]; simpl in He; subst oe. by exists e.
  - intros Hwf.
    assert (∀ (C : Type) (H : LineConsumer C) (c : C),
              LoadData w file c
              = finish (consumeAll location c (fst <$> csv.records ";" file))) as Hok.
    { intros C H c. rewrite Hload. by apply readLoop_wellFormed. }
    split; [done|]. intros c Hc.
    by rewrite (RefreshDepartures_load _ _ _ _ Hfile), Hok, Hc.
Qed.

(** ** The parkings: the field count of the header *)


(** ** Skipping the first line *)

(** C6, as the loader has it.  With [skipFirstLine] set, the first record
    of the input is never handed to the consumer: the lines handed over
    are, in order, records that follow the first one, up to the point
    where the load stops.  When the load returns no error, they are all
    the records after the first, so that an input of N >= 1 records has
    N - 1 of them consumed. *)
Theorem skipFirstLine_handed {C : Type} `{!LineConsumer C} w file (c : C) options :
  skipFirstLine options = true →
  ∃ c' log err,
    LoadDataWithOptions w file ((c, []) : recorder C) options = ((c', log), err)
    ∧ LoadDataWithOptions w file c options = (c', err)
    ∧ log `prefix_of` (fst <$> tail (csv.records (delimiter options) file))
    ∧ (err = None →
       log = fst <$> tail (csv.records (delimiter options) file)
       ∧ (csv.records (delimiter options) file ≠ [] →
          S (length log) = length (csv.records (delimiter options) file))).
Proof.
  intros Hskip. destruct (LoadLocation w "Europe/Paris") as [location|e] eqn:Hloc.
  - rewrite !(LoadDataWithOptions_eq _ location) by done. rewrite Hskip.
    destruct (readLoop_recorder location (nbFields options) true c []
                (csv.records (delimiter options) file)) as (handed & -> & Hpre & Hall).
    eexists _, _, _. split; [reflexivity|]. split; [by destruct (readLoop _ _ _ c _)|].
    split; [done|]. intros Hnone. rewrite (Hall Hnone). split; [done|].
    intros Hne. destruct (csv.records (delimiter options) file); [done|].
    simpl. by rewrite length_fmap.
  - rewrite !(LoadDataWithOptions_no_location _ e) by done.
    exists c, [], (Some e). split_and!; [done|done|apply prefix_nil|done].
Qed.

(** ** The empty input *)


(** ** The charset of the equipment document *)

Lemma getCharsetReader_unknown charset input :
  charset ≠ "ISO-8859-1" → getCharsetReader charset input = Err ErrUnknownCharset.
Proof.
  intros Hne. unfold getCharsetReader.
  by destruct (String.eqb_spec charset "ISO-8859-1").
Qed.

(** C7. A document that declares an encoding other than UTF-8 (in any
    letter case) and other than ISO-8859-1 is not loaded:
    [getCharsetReader] answers with the unknown-charset error, the decoder
    and [LoadXmlData] return it and produce no records, and the refresh
    cycle leaves the store, the equipments snapshot included, as it was. *)
Theorem unknown_charset_fails w location st uri file :
  LoadLocation w "Europe/Paris" = Ok location →
  getFile w uri = Ok file →
  xmlEncoding file ≠ EmptyString →
  EqualFold (xmlEncoding file) "utf-8" = false →
  xmlEncoding file ≠ "ISO-8859-1" →
  getCharsetReader (xmlEncoding file) file = Err ErrUnknownCharset
  ∧ LoadXmlData w file = Err (ErrXmlCharset (xmlEncoding file) ErrUnknownCharset)
  ∧ RefreshEquipments w st uri
    = ({| manager := manager st; metrics := Inc EquipmentsFeed (metrics st) |},
       Some (ErrXmlCharset (xmlEncoding file) ErrUnknownCharset)).
Proof.
  intros Hloc Hfile Hdecl Hutf Hiso.
  assert (LoadXmlData w file = Err (ErrXmlCharset (xmlEncoding file) ErrUnknownCharset))
    as Hload.
  { unfold LoadXmlData, Decode. rewrite Hloc, Hutf.
    destruct (String.eqb_spec (xmlEncoding file) EmptyString); [done|]. simpl.
    by rewrite getCharsetReader_unknown. }
  split_and!; [by apply getCharsetReader_unknown|done|].
  by rewrite (RefreshEquipments_load _ _ _ _ Hfile), Hload.
Qed.

(** ** The refresh loops *)







(** ** The equipments: one record per identifier *)

Section equipments.
Variables (updatedAt : time.Time) (location : time.Location).
Implicit Types (es : list EquipmentSource) (eds : list EquipmentDetail)
  (m : gmap string EquipmentDetail).

Lemma rangeEquipments_app es1 es2 m :
  rangeEquipments updatedAt location (es1 ++ es2) m =
  match rangeEquipments updatedAt location es1 m with
  | Err e => Err e
  | Ok m' => rangeEquipments updatedAt location es2 m'
  end.
Proof.
  revert m. induction es1 as [|e es1 IH]; intros m; [done|]. simpl.
  destruct (NewEquipmentDetail e updatedAt location); [apply IH|done].
Qed.

Lemma rangeStations_flat ss m :
  rangeStations updatedAt location ss m
  = rangeEquipments updatedAt location (s ← ss; Equipments s) m.
Proof.
  revert m. induction ss as [|s ss IH]; intros m; [done|].
  simpl. rewrite rangeEquipments_app.
  destruct (rangeEquipments _ _ (Equipments s) m); [apply IH|done].
Qed.

Lemma rangeLines_flat ls m :
  rangeLines updatedAt location ls m
  = rangeEquipments updatedAt location
      (l ← ls; s ← Stations l; Equipments s) m.
Proof.
  revert m. induction ls as [|l ls IH]; intros m; [done|].
  simpl. rewrite rangeEquipments_app, <- rangeStations_flat.
  destruct (rangeStations _ _ (Stations l) m); [apply IH|done].
Qed.

Lemma rangeEquipments_Ok es m m' :
  rangeEquipments updatedAt location es m = Ok m' →
  ∃ eds, Forall2 (built updatedAt location) es eds ∧ m' = assign m eds.
Proof.
  revert m. induction es as [|e es IH]; intros m; simpl.
  - intros [= <-]. by exists [].
  - destruct (NewEquipmentDetail e updatedAt location) as [ed|] eqn:He; [|done].
    intros (eds & Hall & ->)%IH. exists (ed :: eds). split; [|done].
    by constructor.
Qed.

Lemma rangeEquipments_built es eds m :
  Forall2 (built updatedAt location) es eds →
  rangeEquipments updatedAt location es m = Ok (assign m eds).
Proof.
  intros Hall. revert m. induction Hall as [|e ed es eds He _ IH]; intros m; [done|].
  simpl. unfold built in He. rewrite He. apply IH.
Qed.

(** After the assignments, an identifier leads to the last record that
    carries it. *)
Lemma assign_lookup eds m id :
  assign m eds !! id =
  match last (filter (λ ed, ID ed = id) eds) with
  | Some ed => Some ed
  | None => m !! id
  end.
Proof.
  revert m. induction eds as [|ed eds IH]; intros m; [done|].
  simpl. rewrite IH, filter_cons. destruct (decide (ID ed = id)) as [<-|Hne].
  - rewrite last_cons. destruct (last _); [done|]. by rewrite lookup_insert_eq.
  - destruct (last _); [done|]. by rewrite lookup_insert_ne.
Qed.

Lemma assign_key eds id ed :
  assign ∅ eds !! id = Some ed → ID ed = id.
Proof.
  rewrite assign_lookup, lookup_empty.
  destruct (last _) as [ed'|] eqn:Hlast; [|done]. intros [= ->].
  apply last_Some_elem_of in Hlast. by apply list_elem_of_filter in Hlast as [? _].
Qed.

Lemma Forall2_filter_built (P : EquipmentSource → Prop) (Q : EquipmentDetail → Prop)
    `{!∀ e, Decision (P e)} `{!∀ ed, Decision (Q ed)} es eds :
  (∀ e ed, built updatedAt location e ed → (P e ↔ Q ed)) →
  Forall2 (built updatedAt location) es eds →
  Forall2 (built updatedAt location) (filter P es) (filter Q eds).
Proof.
  intros HPQ Hall. induction Hall as [|e ed es eds He _ IH]; [constructor|].
  rewrite !filter_cons. specialize (HPQ e ed He).
  destruct (decide (P e)) as [HP|HP], (decide (Q ed)) as [HQ|HQ].
  - by constructor.
  - by destruct HQ; apply HPQ.
  - by destruct HP; apply HPQ.
  - done.
Qed.
End equipments.

(** C3. The records [LoadXmlData] returns carry pairwise different
    identifiers, and they are exactly the records built from the elements
    that are the last, in the order of the traversal (lines, then
    stations, then equipments), to carry their identifier: of several
    elements with one identifier only the last leaves a record. *)
Theorem equipments_last_occurrence_wins w file l :
  (∀ m, mapRange m ≡ₚ map_to_list m) →
  (∀ e t loc ed, NewEquipmentDetail e t loc = Ok ed → ID ed = srcID e) →
  LoadXmlData w file = Ok l →
  ∃ location root updatedAt,
    LoadLocation w "Europe/Paris" = Ok location
    ∧ Decode getCharsetReader file = Ok root
    ∧ CalculateDate (Root_Info root) location = Ok updatedAt
    ∧ NoDup (ID <$> l)
    ∧ ∀ ed, ed ∈ l ↔
        ∃ e, last (filter (λ e', srcID e' = srcID e) (traversal root)) = Some e
             ∧ NewEquipmentDetail e updatedAt location = Ok ed.
Proof.
  intros Hrange HID. unfold LoadXmlData.
  destruct (LoadLocation w "Europe/Paris") as [location|] eqn:Hloc; [|done].
  destruct (Decode getCharsetReader file) as [root|] eqn:Hdec; [|done].
  destruct (CalculateDate (Root_Info root) location) as [updatedAt|] eqn:Hdate; [|done].
  rewrite rangeLines_flat.
  destruct (rangeEquipments _ _ _ ∅) as [m|] eqn:Hm; [|done].
  intros [= <-]. exists location, root, updatedAt. do 3 (split; [done|]).
  apply rangeEquipments_Ok in Hm as (eds & Hall & ->).
  fold (traversal root) in Hall.
  assert (∀ id ed, assign ∅ eds !! id = Some ed ↔
            ∃ e, last (filter (λ e', srcID e' = id) (traversal root)) = Some e
                 ∧ built updatedAt location e ed) as Hlast.
  { intros id ed. rewrite assign_lookup, lookup_empty.
    pose proof (Forall2_filter_built updatedAt location
                  (λ e', srcID e' = id) (λ ed', ID ed' = id) _ eds
                  ltac:(intros e' ed' Hb%HID; cbv beta; by rewrite Hb) Hall) as Hf.
    apply Forall2_last in Hf.
    destruct (last (filter (λ ed', ID ed' = id) eds)) as [ed'|],
             (last (filter (λ e', srcID e' = id) (traversal root))) as [e|];
      inversion Hf as [? ? Hb|]; subst.
    - split.
      + intros [= <-]. eauto.
      + intros (e' & [= <-] & Hb'). unfold built in *. congruence.
    - split; [done|]. by intros (e' & ? & ?). }
  split.
  - rewrite <- list_fmap_compose, Hrange.
    rewrite (list_fmap_ext (ID ∘ snd) fst (map_to_list (assign ∅ eds))).
    + apply NoDup_fst_map_to_list.
    + intros i [k v] Hi%list_elem_of_lookup_2%elem_of_map_to_list.
      simpl. by eapply assign_key.
  - intros ed. rewrite list_elem_of_fmap. split.
    + intros ([k v] & -> & Hin). rewrite Hrange in Hin.
      apply elem_of_map_to_list in Hin. pose proof (assign_key _ _ _ Hin) as <-.
      apply Hlast in Hin as (e & He & Hb). exists e.
      by rewrite (HID _ _ _ _ Hb) in He.
    + intros (e & He & Hb). exists (srcID e, ed). split; [done|].
      rewrite Hrange. apply elem_of_map_to_list, Hlast. eauto.
Qed.
(** ** What a cycle depends on, and what it touches *)

(** A cycle is decided by the world and the address: it fails, whatever
    the state, or it stores the same data and observes the same duration,
    whatever the state. *)
Lemma RefreshDepartures_cases w uri :
  (∃ e, ∀ st, RefreshDepartures w st uri = failed DeparturesFeed st e)
  ∨ (∃ d, ∀ st, RefreshDepartures w st uri
              = ({| manager := UpdateDepartures (manager st) d;
                    metrics := Observe DeparturesFeed (elapsed w) (metrics st) |}, None)).
Proof.
  unfold RefreshDepartures. destruct (getFile w uri) as [file|e]; [|left; by exists e].
  destruct (LoadData w file makeDepartureLineConsumer) as [c [e|]].
  - left. by exists e.
  - right. by exists (data c).
Qed.

Lemma RefreshParkings_cases w uri :
  (∃ e, ∀ st, RefreshParkings w st uri = failed ParkingsFeed st e)
  ∨ (∃ p, ∀ st, RefreshParkings w st uri
              = ({| manager := UpdateParkings (manager st) p;
                    metrics := Observe ParkingsFeed (elapsed w) (metrics st) |}, None)).
Proof.
  unfold RefreshParkings. destruct (getFile w uri) as [file|e]; [|left; by exists e].
  destruct (LoadDataWithOptions w file makeParkingLineConsumer _) as [c [e|]].
  - left. by exists e.
  - right. by exists (parkings c).
Qed.

Lemma RefreshEquipments_cases w uri :
  (∃ e, ∀ st, RefreshEquipments w st uri = failed EquipmentsFeed st e)
  ∨ (∃ l, ∀ st, RefreshEquipments w st uri
              = ({| manager := UpdateEquipments (manager st) l;
                    metrics := Observe EquipmentsFeed (elapsed w) (metrics st) |}, None)).
Proof.
  unfold RefreshEquipments. destruct (getFile w uri) as [file|e]; [|left; by exists e].
  destruct (LoadXmlData w file) as [l|e].
  - right. by exists l.
  - left. by exists e.
Qed.

(** X1. A cycle reads the store and the collectors only to write them
    back: the error it returns, and on success the snapshot it stores for
    its feed, are the same from any two states. *)
Theorem refresh_outcome_ignores_state w st st' uri :
  (snd (RefreshDepartures w st uri) = snd (RefreshDepartures w st' uri)
   ∧ (snd (RefreshDepartures w st uri) = None →
      departures (manager (fst (RefreshDepartures w st uri)))
      = departures (manager (fst (RefreshDepartures w st' uri)))))
  ∧ (snd (RefreshParkings w st uri) = snd (RefreshParkings w st' uri)
     ∧ (snd (RefreshParkings w st uri) = None →
        parkingsData (manager (fst (RefreshParkings w st uri)))
        = parkingsData (manager (fst (RefreshParkings w st' uri)))))
  ∧ (snd (RefreshEquipments w st uri) = snd (RefreshEquipments w st' uri)
     ∧ (snd (RefreshEquipments w st uri) = None →
        equipments (manager (fst (RefreshEquipments w st uri)))
        = equipments (manager (fst (RefreshEquipments w st' uri))))).
Proof.
  split; [|split].
  - destruct (RefreshDepartures_cases w uri) as [[e He]|[x He]]; by rewrite !He.
  - destruct (RefreshParkings_cases w uri) as [[e He]|[x He]]; by rewrite !He.
  - destruct (RefreshEquipments_cases w uri) as [[e He]|[x He]]; by rewrite !He.
Qed.


(** X2. A cycle touches its own feed only.  Whether it fails or
    succeeds, the snapshots of the two other feeds and the collectors of
    the two other feeds are after the cycle what they were before. *)
Theorem refresh_touches_own_feed_only w st uri :
  (let st' := fst (RefreshDepartures w st uri) in
   parkingsData (manager st') = parkingsData (manager st)
   ∧ equipments (manager st') = equipments (manager st)
   ∧ parkingsLoadingDuration (metrics st') = parkingsLoadingDuration (metrics st)
   ∧ parkingsLoadingErrors (metrics st') = parkingsLoadingErrors (metrics st)
   ∧ equipmentsLoadingDuration (metrics st') = equipmentsLoadingDuration (metrics st)
   ∧ equipmentsLoadingErrors (metrics st') = equipmentsLoadingErrors (metrics st))
  ∧ (let st' := fst (RefreshParkings w st uri) in
     departures (manager st') = departures (manager st)
     ∧ equipments (manager st') = equipments (manager st)
     ∧ departureLoadingDuration (metrics st') = departureLoadingDuration (metrics st)
     ∧ departureLoadingErrors (metrics st') = departureLoadingErrors (metrics st)
     ∧ equipmentsLoadingDuration (metrics st') = equipmentsLoadingDuration (metrics st)
     ∧ equipmentsLoadingErrors (metrics st') = equipmentsLoadingErrors (metrics st))
  ∧ (let st' := fst (RefreshEquipments w st uri) in
     departures (manager st') = departures (manager st)
     ∧ parkingsData (manager st') = parkingsData (manager st)
     ∧ departureLoadingDuration (metrics st') = departureLoadingDuration (metrics st)
     ∧ departureLoadingErrors (metrics st') = departureLoadingErrors (metrics st)
     ∧ parkingsLoadingDuration (metrics st') = parkingsLoadingDuration (metrics st)
     ∧ parkingsLoadingErrors (metrics st') = parkingsLoadingErrors (metrics st)).
Proof.
  split; [|split]; cbv zeta.
  - destruct (RefreshDepartures_cases w uri) as [[e He]|[x He]]; by rewrite !He.
  - destruct (RefreshParkings_cases w uri) as [[e He]|[x He]]; by rewrite !He.
  - destruct (RefreshEquipments_cases w uri) as [[e He]|[x He]]; by rewrite !He.
Qed.

(** ** Retrieval and time zone *)

(** X3. The scheme decides the retrieval, and it is compared as it is
    written.  For an address whose scheme is neither "sftp" nor "file",
    in any world, [getFile] fails with the unsupported-protocol error
    that names the scheme, and the cycle of each of the three feeds
    returns this error, counts it and leaves the store alone. *)
Theorem unsupported_scheme_fails_everywhere w st uri :
  Scheme uri ≠ "sftp" → Scheme uri ≠ "file" →
  getFile w uri = Err (ErrUnsupportedProtocol (Scheme uri))
  ∧ RefreshDepartures w st uri
    = ({| manager := manager st; metrics := Inc DeparturesFeed (metrics st) |},
       Some (ErrUnsupportedProtocol (Scheme uri)))
  ∧ RefreshParkings w st uri
    = ({| manager := manager st; metrics := Inc ParkingsFeed (metrics st) |},
       Some (ErrUnsupportedProtocol (Scheme uri)))
  ∧ RefreshEquipments w st uri
    = ({| manager := manager st; metrics := Inc EquipmentsFeed (metrics st) |},
       Some (ErrUnsupportedProtocol (Scheme uri))).
Proof.
  intros Hsftp Hfile.
  assert (getFile w uri = Err (ErrUnsupportedProtocol (Scheme uri))) as Hget.
  { unfold getFile. destruct (String.eqb_spec (Scheme uri) "sftp"); [done|].
    by destruct (String.eqb_spec (Scheme uri) "file"). }
  split; [done|].
  by rewrite (RefreshDepartures_Err _ _ _ _ Hget), (RefreshParkings_Err _ _ _ _ Hget),
    (RefreshEquipments_Err _ _ _ _ Hget).
Qed.

(** X4. The three loaders need the time zone "Europe/Paris" before they
    read a byte.  In a world where it cannot be loaded, a cycle of any
    feed fails with the error of [time.LoadLocation], whatever the bytes
    retrieved, and the store is left alone. *)
Theorem no_time_zone_no_refresh w st uri file e :
  LoadLocation w "Europe/Paris" = Err e →
  getFile w uri = Ok file →
  RefreshDepartures w st uri
  = ({| manager := manager st; metrics := Inc DeparturesFeed (metrics st) |}, Some e)
  ∧ RefreshParkings w st uri
    = ({| manager := manager st; metrics := Inc ParkingsFeed (metrics st) |}, Some e)
  ∧ RefreshEquipments w st uri
    = ({| manager := manager st; metrics := Inc EquipmentsFeed (metrics st) |}, Some e).
Proof.
  intros Hloc Hfile. split; [|split].
  - rewrite (RefreshDepartures_load _ _ _ _ Hfile). unfold LoadData.
    by rewrite (LoadDataWithOptions_no_location _ _ _ _ _ Hloc).
  - rewrite (RefreshParkings_load _ _ _ _ Hfile).
    by rewrite (LoadDataWithOptions_no_location _ _ _ _ _ Hloc).
  - rewrite (RefreshEquipments_load _ _ _ _ Hfile). unfold LoadXmlData. by rewrite Hloc.
Qed.

(** ** The loops, iteration after iteration *)

Section iterations.
Variable refresh : World → State → State * option error.
Variables (f : Feed) (msg dbg : string).
Implicit Types (n k : nat) (d : Z).

Lemma iterations_app n m (w : nat → World) st d :
  iterations refresh f msg dbg (n + m) w st d =
  let '(st1, evs1) := iterations refresh f msg dbg n w st d in
  let '(st2, evs2) := iterations refresh f msg dbg m (λ k, w (n + k)%nat) st1 d in
  (st2, evs1 ++ evs2).
Proof.
  revert w st. induction n as [|n IH]; intros w st; simpl.
  - by destruct (iterations refresh f msg dbg m _ st d).
  - destruct (refresh (w 0%nat) st) as [st1 err]. rewrite IH.
    destruct (iterations refresh f msg dbg n _ st1 d) as [st2 evs1].
    destruct (iterations refresh f msg dbg m _ st2 d) as [st3 evs2].
    f_equal. simpl. f_equal. rewrite <- app_assoc. done.
Qed.

(** What every cycle keeps, the iterations keep. *)
Lemma iterations_frame {R : Type} (rest : State → R) n (w : nat → World) st d :
  (∀ w st, rest (fst (refresh w st)) = rest st) →
  rest (fst (iterations refresh f msg dbg n w st d)) = rest st.
Proof.
  intros Hrest. revert w st. induction n as [|n IH]; intros w st; [done|]. simpl.
  pose proof (Hrest (w 0%nat) st) as H0.
  destruct (refresh (w 0%nat) st) as [st1 err].
  specialize (IH (λ k, w (S k)) st1).
  destruct (iterations refresh f msg dbg n _ st1 d) as [st' evs]. simpl in *.
  by rewrite IH.
Qed.

(** The error counter follows the cycles that fail, the histogram those
    that succeed, and every failure is logged once. *)
Lemma iterations_failures (μ : State → nat) n (w : nat → World) st d :
  (∀ w st, μ (fst (refresh w st))
           = match snd (refresh w st) with Some _ => S (μ st) | None => μ st end) →
  μ (fst (iterations refresh f msg dbg n w st d))
  = (failures (snd (iterations refresh f msg dbg n w st d)) + μ st)%nat.
Proof.
  intros Hμ. revert w st. induction n as [|n IH]; intros w st; [done|]. simpl.
  pose proof (Hμ (w 0%nat) st) as H0.
  destruct (refresh (w 0%nat) st) as [st1 err].
  specialize (IH (λ k, w (S k)) st1).
  destruct (iterations refresh f msg dbg n _ st1 d) as [st' evs]. simpl in *.
  rewrite IH, H0. unfold failures. destruct err; simpl; lia.
Qed.

Lemma iterations_successes (μ : State → nat) n (w : nat → World) st d :
  (∀ w st, μ (fst (refresh w st))
           = match snd (refresh w st) with Some _ => μ st | None => S (μ st) end) →
  (μ (fst (iterations refresh f msg dbg n w st d))
   + failures (snd (iterations refresh f msg dbg n w st d)) = n + μ st)%nat.
Proof.
  intros Hμ. revert w st. induction n as [|n IH]; intros w st; [done|]. simpl.
  pose proof (Hμ (w 0%nat) st) as H0.
  destruct (refresh (w 0%nat) st) as [st1 err].
  specialize (IH (λ k, w (S k)) st1).
  destruct (iterations refresh f msg dbg n _ st1 d) as [st' evs]. simpl in *.
  unfold failures in *. destruct err; simpl; lia.
Qed.

Lemma iterations_errorLogs n (w : nat → World) st d :
  errorLogs (snd (iterations refresh f msg dbg n w st d))
  = failures (snd (iterations refresh f msg dbg n w st d)).
Proof.
  revert w st. induction n as [|n IH]; intros w st; [done|]. simpl.
  destruct (refresh (w 0%nat) st) as [st1 err].
  specialize (IH (λ k, w (S k)) st1).
  destruct (iterations refresh f msg dbg n _ st1 d) as [st' evs]. simpl in *.
  unfold failures, errorLogs in *. destruct err; simpl; lia.
Qed.

Section held.
Context {T : Type} (get : State → T).
Hypothesis outcome : ∀ w st st', snd (refresh w st) = snd (refresh w st').
Hypothesis kept : ∀ w st, snd (refresh w st) ≠ None → get (fst (refresh w st)) = get st.

Lemma iterations_all_fail n (w : nat → World) st d :
  (∀ j, (j < n)%nat → snd (refresh (w j) st) ≠ None) →
  get (fst (iterations refresh f msg dbg n w st d)) = get st.
Proof.
  revert w st. induction n as [|n IH]; intros w st Hfail; [done|]. simpl.
  pose proof (kept (w 0%nat) st (Hfail 0%nat ltac:(lia))) as H0.
  destruct (refresh (w 0%nat) st) as [st1 err] eqn:Hr.
  specialize (IH (λ k, w (S k)) st1).
  destruct (iterations refresh f msg dbg n _ st1 d) as [st' evs]. simpl in *.
  rewrite IH; [done|]. intros j Hj. rewrite (outcome _ st1 st). apply Hfail. lia.
Qed.

Hypothesis stored : ∀ w st st',
  snd (refresh w st) = None → get (fst (refresh w st)) = get (fst (refresh w st')).

Lemma iterations_last_success n k (w : nat → World) st d :
  (k < n)%nat →
  snd (refresh (w k) st) = None →
  (∀ j, (k < j < n)%nat → snd (refresh (w j) st) ≠ None) →
  get (fst (iterations refresh f msg dbg n w st d)) = get (fst (refresh (w k) st)).
Proof.
  revert k w st. induction n as [|n IH]; intros k w st Hk Hok Hfail; [lia|].
  destruct k as [|k].
  - pose proof (iterations_all_fail n (λ k, w (S k)) (fst (refresh (w 0%nat) st)) d) as Hall.
    simpl. destruct (refresh (w 0%nat) st) as [st1 err]. simpl in Hall.
    destruct (iterations refresh f msg dbg n _ st1 d) as [st' evs]. simpl in *.
    apply Hall. intros j Hj. rewrite (outcome _ st1 st). apply Hfail. lia.
  - specialize (IH k (λ k, w (S k)) (fst (refresh (w 0%nat) st))).
    simpl. destruct (refresh (w 0%nat) st) as [st1 err]. simpl in IH.
    destruct (iterations refresh f msg dbg n _ st1 d) as [st' evs]. simpl in *.
    rewrite IH.
    + by apply stored; rewrite (outcome _ st1 st).
    + lia.
    + by rewrite (outcome _ st1 st).
    + intros j Hj. rewrite (outcome _ st1 st). apply Hfail. lia.
Qed.
End held.
End iterations.

Lemma departureIterations_iterations n (w : nat → World) st uri d :
  departureIterations n w st uri d
  = iterations (λ w st, RefreshDepartures w st uri) DeparturesFeed
      "Error while reloading departures data: " "Departure data updated" n w st d.
Proof.
  revert w st. induction n as [|n IH]; intros w st; [done|]. simpl.
  destruct (RefreshDepartures (w 0%nat) st uri) as [st1 err]. by rewrite IH.
Qed.

Lemma RefreshDepartureLoop_iterations n (w : nat → World) st uri d :
  (time.Second ≤ d)%Z →
  RefreshDepartureLoop n w st uri d
  = let '(st', evs) :=
      iterations (λ w st, RefreshDepartures w st uri) DeparturesFeed
        "Error while reloading departures data: " "Departure data updated" n w st d in
    (Looping, st', evs).
Proof.
  intros Hd. unfold RefreshDepartureLoop, time.Seconds_lt_1.
  destruct (Z.ltb_spec d time.Second); [lia|]. by rewrite departureIterations_iterations.
Qed.

Lemma RefreshParkingLoop_iterations n (w : nat → World) st uri d :
  RefreshParkingLoop n w st uri d
  = let '(st', evs) :=
      iterations (λ w st, RefreshParkings w st uri) ParkingsFeed
        "Error while reloading parking data: " "Parking data updated" n w st d in
    (Looping, st', evs).
Proof.
  revert w st. induction n as [|n IH]; intros w st; [done|]. simpl.
  destruct (RefreshParkings (w 0%nat) st uri) as [st1 err]. rewrite IH.
  by destruct (iterations _ _ _ _ n _ st1 d).
Qed.

Lemma RefreshEquipmentLoop_iterations n (w : nat → World) st uri d :
  RefreshEquipmentLoop n w st uri d
  = let '(st', evs) :=
      iterations (λ w st, RefreshEquipments w st uri) EquipmentsFeed
        "Error while reloading equipment data: " "Equipment data updated" n w st d in
    (Looping, st', evs).
Proof.
  revert w st. induction n as [|n IH]; intros w st; [done|]. simpl.
  destruct (RefreshEquipments (w 0%nat) st uri) as [st1 err]. rewrite IH.
  by destruct (iterations _ _ _ _ n _ st1 d).
Qed.

(** X5. A loop followed for [n + m] iterations is the loop followed for
    [n] iterations and then, from the state these have reached and in the
    worlds that come after them, for [m] more: every cycle starts from
    what the cycle before it has left, and nothing else is carried from
    one iteration to the next. *)
Theorem refresh_loops_compose (n m : nat) (w : nat → World) st uri (d : Z) :
  ((time.Second ≤ d)%Z →
   RefreshDepartureLoop (n + m) w st uri d =
   let '(_, st1, evs1) := RefreshDepartureLoop n w st uri d in
   let '(p, st2, evs2) := RefreshDepartureLoop m (λ k, w (n + k)%nat) st1 uri d in
   (p, st2, evs1 ++ evs2))
  ∧ RefreshParkingLoop (n + m) w st uri d =
    (let '(_, st1, evs1) := RefreshParkingLoop n w st uri d in
     let '(p, st2, evs2) := RefreshParkingLoop m (λ k, w (n + k)%nat) st1 uri d in
     (p, st2, evs1 ++ evs2))
  ∧ RefreshEquipmentLoop (n + m) w st uri d =
    (let '(_, st1, evs1) := RefreshEquipmentLoop n w st uri d in
     let '(p, st2, evs2) := RefreshEquipmentLoop m (λ k, w (n + k)%nat) st1 uri d in
     (p, st2, evs1 ++ evs2)).
Proof.
  split; [|split].
  - intros Hd. rewrite !(RefreshDepartureLoop_iterations _ _ _ _ _ Hd), iterations_app.
    destruct (iterations _ _ _ _ n w st d) as [st1 evs1].
    rewrite (RefreshDepartureLoop_iterations _ _ _ _ _ Hd).
    by destruct (iterations _ _ _ _ m _ st1 d).
  - rewrite !RefreshParkingLoop_iterations, iterations_app.
    destruct (iterations _ _ _ _ n w st d) as [st1 evs1].
    rewrite RefreshParkingLoop_iterations.
    by destruct (iterations _ _ _ _ m _ st1 d).
  - rewrite !RefreshEquipmentLoop_iterations, iterations_app.
    destruct (iterations _ _ _ _ n w st d) as [st1 evs1].
    rewrite RefreshEquipmentLoop_iterations.
    by destruct (iterations _ _ _ _ m _ st1 d).
Qed.

Lemma RefreshDepartures_beside uri w st :
  besideDepartures (fst (RefreshDepartures w st uri)) = besideDepartures st.
Proof.
  unfold besideDepartures. destruct (RefreshDepartures_cases w uri) as [[e He]|[x He]];
    by rewrite !He.
Qed.

Lemma RefreshParkings_beside uri w st :
  besideParkings (fst (RefreshParkings w st uri)) = besideParkings st.
Proof.
  unfold besideParkings. destruct (RefreshParkings_cases w uri) as [[e He]|[x He]];
    by rewrite !He.
Qed.

Lemma RefreshEquipments_beside uri w st :
  besideEquipments (fst (RefreshEquipments w st uri)) = besideEquipments st.
Proof.
  unfold besideEquipments. destruct (RefreshEquipments_cases w uri) as [[e He]|[x He]];
    by rewrite !He.
Qed.

(** X6. A loop touches its own feed only, however long it runs: after
    any number of iterations the snapshots of the two other feeds and the
    collectors of the two other feeds are what they were when the loop
    started. *)
Theorem refresh_loops_keep_other_feeds (n : nat) (w : nat → World) st uri (d : Z) :
  (∀ p st' evs, RefreshDepartureLoop n w st uri d = (p, st', evs) →
     parkingsData (manager st') = parkingsData (manager st)
     ∧ equipments (manager st') = equipments (manager st)
     ∧ parkingsLoadingDuration (metrics st') = parkingsLoadingDuration (metrics st)
     ∧ parkingsLoadingErrors (metrics st') = parkingsLoadingErrors (metrics st)
     ∧ equipmentsLoadingDuration (metrics st') = equipmentsLoadingDuration (metrics st)
     ∧ equipmentsLoadingErrors (metrics st') = equipmentsLoadingErrors (metrics st))
  ∧ (∀ p st' evs, RefreshParkingLoop n w st uri d = (p, st', evs) →
       departures (manager st') = departures (manager st)
       ∧ equipments (manager st') = equipments (manager st)
       ∧ departureLoadingDuration (metrics st') = departureLoadingDuration (metrics st)
       ∧ departureLoadingErrors (metrics st') = departureLoadingErrors (metrics st)
       ∧ equipmentsLoadingDuration (metrics st') = equipmentsLoadingDuration (metrics st)
       ∧ equipmentsLoadingErrors (metrics st') = equipmentsLoadingErrors (metrics st))
  ∧ (∀ p st' evs, RefreshEquipmentLoop n w st uri d = (p, st', evs) →
       departures (manager st') = departures (manager st)
       ∧ parkingsData (manager st') = parkingsData (manager st)
       ∧ departureLoadingDuration (metrics st') = departureLoadingDuration (metrics st)
       ∧ departureLoadingErrors (metrics st') = departureLoadingErrors (metrics st)
       ∧ parkingsLoadingDuration (metrics st') = parkingsLoadingDuration (metrics st)
       ∧ parkingsLoadingErrors (metrics st') = parkingsLoadingErrors (metrics st)).
Proof.
  split; [|split]; intros p st' evs.
  - unfold RefreshDepartureLoop. destruct (time.Seconds_lt_1 d); [by intros [= <- <- <-]|].
    rewrite departureIterations_iterations.
    pose proof (iterations_frame (λ w st, RefreshDepartures w st uri) DeparturesFeed
                  "Error while reloading departures data: " "Departure data updated"
                  besideDepartures n w st d (RefreshDepartures_beside uri)) as H.
    destruct (iterations _ _ _ _ n w st d) as [st1 evs1]. intros [= <- <- <-].
    injection H as -> -> -> -> -> ->. done.
  - rewrite RefreshParkingLoop_iterations.
    pose proof (iterations_frame (λ w st, RefreshParkings w st uri) ParkingsFeed
                  "Error while reloading parking data: " "Parking data updated"
                  besideParkings n w st d (RefreshParkings_beside uri)) as H.
    destruct (iterations _ _ _ _ n w st d) as [st1 evs1]. intros [= <- <- <-].
    injection H as -> -> -> -> -> ->. done.
  - rewrite RefreshEquipmentLoop_iterations.
    pose proof (iterations_frame (λ w st, RefreshEquipments w st uri) EquipmentsFeed
                  "Error while reloading equipment data: " "Equipment data updated"
                  besideEquipments n w st d (RefreshEquipments_beside uri)) as H.
    destruct (iterations _ _ _ _ n w st d) as [st1 evs1]. intros [= <- <- <-].
    injection H as -> -> -> -> -> ->. done.
Qed.

Lemma RefreshDepartures_errors uri w st :
  departureLoadingErrors (metrics (fst (RefreshDepartures w st uri)))
  = match snd (RefreshDepartures w st uri) with
    | Some _ => S (departureLoadingErrors (metrics st))
    | None => departureLoadingErrors (metrics st)
    end.
Proof. destruct (RefreshDepartures_cases w uri) as [[e He]|[x He]]; by rewrite !He. Qed.

Lemma RefreshDepartures_durations uri w st :
  length (departureLoadingDuration (metrics (fst (RefreshDepartures w st uri))))
  = match snd (RefreshDepartures w st uri) with
    | Some _ => length (departureLoadingDuration (metrics st))
    | None => S (length (departureLoadingDuration (metrics st)))
    end.
Proof. destruct (RefreshDepartures_cases w uri) as [[e He]|[x He]]; by rewrite !He. Qed.

Lemma RefreshParkings_errors uri w st :
  parkingsLoadingErrors (metrics (fst (RefreshParkings w st uri)))
  = match snd (RefreshParkings w st uri) with
    | Some _ => S (parkingsLoadingErrors (metrics st))
    | None => parkingsLoadingErrors (metrics st)
    end.
Proof. destruct (RefreshParkings_cases w uri) as [[e He]|[x He]]; by rewrite !He. Qed.

Lemma RefreshParkings_durations uri w st :
  length (parkingsLoadingDuration (metrics (fst (RefreshParkings w st uri))))
  = match snd (RefreshParkings w st uri) with
    | Some _ => length (parkingsLoadingDuration (metrics st))
    | None => S (length (parkingsLoadingDuration (metrics st)))
    end.
Proof. destruct (RefreshParkings_cases w uri) as [[e He]|[x He]]; by rewrite !He. Qed.

Lemma RefreshEquipments_errors uri w st :
  equipmentsLoadingErrors (metrics (fst (RefreshEquipments w st uri)))
  = match snd (RefreshEquipments w st uri) with
    | Some _ => S (equipmentsLoadingErrors (metrics st))
    | None => equipmentsLoadingErrors (metrics st)
    end.
Proof. destruct (RefreshEquipments_cases w uri) as [[e He]|[x He]]; by rewrite !He. Qed.

Lemma RefreshEquipments_durations uri w st :
  length (equipmentsLoadingDuration (metrics (fst (RefreshEquipments w st uri))))
  = match snd (RefreshEquipments w st uri) with
    | Some _ => length (equipmentsLoadingDuration (metrics st))
    | None => S (length (equipmentsLoadingDuration (metrics st)))
    end.
Proof. destruct (RefreshEquipments_cases w uri) as [[e He]|[x He]]; by rewrite !He. Qed.

(** X7. A loop accounts for every cycle.  After [n] iterations the error
    counter of the feed has grown by the number of cycles that returned
    an error, its histogram has one more observation for each of the
    other cycles, and the loop has logged one error for each failure: no
    cycle goes uncounted and none is counted twice. *)
Theorem refresh_loops_account_for_every_cycle (n : nat) (w : nat → World) st uri (d : Z) :
  ((time.Second ≤ d)%Z →
   ∀ p st' evs, RefreshDepartureLoop n w st uri d = (p, st', evs) →
     departureLoadingErrors (metrics st')
     = (failures evs + departureLoadingErrors (metrics st))%nat
     ∧ (length (departureLoadingDuration (metrics st')) + failures evs
        = n + length (departureLoadingDuration (metrics st)))%nat
     ∧ errorLogs evs = failures evs)
  ∧ (∀ p st' evs, RefreshParkingLoop n w st uri d = (p, st', evs) →
       parkingsLoadingErrors (metrics st')
       = (failures evs + parkingsLoadingErrors (metrics st))%nat
       ∧ (length (parkingsLoadingDuration (metrics st')) + failures evs
          = n + length (parkingsLoadingDuration (metrics st)))%nat
       ∧ errorLogs evs = failures evs)
  ∧ (∀ p st' evs, RefreshEquipmentLoop n w st uri d = (p, st', evs) →
       equipmentsLoadingErrors (metrics st')
       = (failures evs + equipmentsLoadingErrors (metrics st))%nat
       ∧ (length (equipmentsLoadingDuration (metrics st')) + failures evs
          = n + length (equipmentsLoadingDuration (metrics st)))%nat
       ∧ errorLogs evs = failures evs).
Proof.
  split; [|split].
  - intros Hd p st' evs. rewrite (RefreshDepartureLoop_iterations _ _ _ _ _ Hd).
    pose proof (iterations_failures _ DeparturesFeed
                  "Error while reloading departures data: " "Departure data updated"
                  (λ st, departureLoadingErrors (metrics st)) n w st d
                  (RefreshDepartures_errors uri)) as H1.
    pose proof (iterations_successes _ DeparturesFeed
                  "Error while reloading departures data: " "Departure data updated"
                  (λ st, length (departureLoadingDuration (metrics st))) n w st d
                  (RefreshDepartures_durations uri)) as H2.
    pose proof (iterations_errorLogs (λ w st, RefreshDepartures w st uri) DeparturesFeed
                  "Error while reloading departures data: " "Departure data updated"
                  n w st d) as H3.
    destruct (iterations _ _ _ _ n w st d) as [st1 evs1]. by intros [= <- <- <-].
  - intros p st' evs. rewrite RefreshParkingLoop_iterations.
    pose proof (iterations_failures _ ParkingsFeed
                  "Error while reloading parking data: " "Parking data updated"
                  (λ st, parkingsLoadingErrors (metrics st)) n w st d
                  (RefreshParkings_errors uri)) as H1.
    pose proof (iterations_successes _ ParkingsFeed
                  "Error while reloading parking data: " "Parking data updated"
                  (λ st, length (parkingsLoadingDuration (metrics st))) n w st d
                  (RefreshParkings_durations uri)) as H2.
    pose proof (iterations_errorLogs (λ w st, RefreshParkings w st uri) ParkingsFeed
                  "Error while reloading parking data: " "Parking data updated"
                  n w st d) as H3.
    destruct (iterations _ _ _ _ n w st d) as [st1 evs1]. by intros [= <- <- <-].
  - intros p st' evs. rewrite RefreshEquipmentLoop_iterations.
    pose proof (iterations_failures _ EquipmentsFeed
                  "Error while reloading equipment data: " "Equipment data updated"
                  (λ st, equipmentsLoadingErrors (metrics st)) n w st d
                  (RefreshEquipments_errors uri)) as H1.
    pose proof (iterations_successes _ EquipmentsFeed
                  "Error while reloading equipment data: " "Equipment data updated"
                  (λ st, length (equipmentsLoadingDuration (metrics st))) n w st d
                  (RefreshEquipments_durations uri)) as H2.
    pose proof (iterations_errorLogs (λ w st, RefreshEquipments w st uri) EquipmentsFeed
                  "Error while reloading equipment data: " "Equipment data updated"
                  n w st d) as H3.
    destruct (iterations _ _ _ _ n w st d) as [st1 evs1]. by intros [= <- <- <-].
Qed.

Lemma RefreshDepartures_outcome uri w st st' :
  snd (RefreshDepartures w st uri) = snd (RefreshDepartures w st' uri).
Proof. destruct (RefreshDepartures_cases w uri) as [[e He]|[x He]]; by rewrite !He. Qed.

Lemma RefreshParkings_outcome uri w st st' :
  snd (RefreshParkings w st uri) = snd (RefreshParkings w st' uri).
Proof. destruct (RefreshParkings_cases w uri) as [[e He]|[x He]]; by rewrite !He. Qed.

Lemma RefreshEquipments_outcome uri w st st' :
  snd (RefreshEquipments w st uri) = snd (RefreshEquipments w st' uri).
Proof. destruct (RefreshEquipments_cases w uri) as [[e He]|[x He]]; by rewrite !He. Qed.

(** A cycle that fails leaves the store and the histogram of its feed
    alone. *)
Lemma RefreshDepartures_kept uri w st :
  snd (RefreshDepartures w st uri) ≠ None →
  (manager (fst (RefreshDepartures w st uri)),
   departureLoadingDuration (metrics (fst (RefreshDepartures w st uri))))
  = (manager st, departureLoadingDuration (metrics st)).
Proof. destruct (RefreshDepartures_cases w uri) as [[e He]|[x He]]; by rewrite !He. Qed.

Lemma RefreshParkings_kept uri w st :
  snd (RefreshParkings w st uri) ≠ None →
  (manager (fst (RefreshParkings w st uri)),
   parkingsLoadingDuration (metrics (fst (RefreshParkings w st uri))))
  = (manager st, parkingsLoadingDuration (metrics st)).
Proof. destruct (RefreshParkings_cases w uri) as [[e He]|[x He]]; by rewrite !He. Qed.

Lemma RefreshEquipments_kept uri w st :
  snd (RefreshEquipments w st uri) ≠ None →
  (manager (fst (RefreshEquipments w st uri)),
   equipmentsLoadingDuration (metrics (fst (RefreshEquipments w st uri))))
  = (manager st, equipmentsLoadingDuration (metrics st)).
Proof. destruct (RefreshEquipments_cases w uri) as [[e He]|[x He]]; by rewrite !He. Qed.

(** X8. A feed that cannot be refreshed keeps its snapshot.  When every
    one of the first [n] cycles of a loop fails, the loop is still going
    after them, the store is the one it started from, no duration has
    been observed, and the error counter of the feed has grown by [n]. *)
Theorem failing_feed_keeps_its_snapshot (n : nat) (w : nat → World) st uri (d : Z) :
  ((time.Second ≤ d)%Z →
   (∀ j, (j < n)%nat → snd (RefreshDepartures (w j) st uri) ≠ None) →
   ∃ st' evs, RefreshDepartureLoop n w st uri d = (Looping, st', evs)
     ∧ manager st' = manager st
     ∧ departureLoadingDuration (metrics st') = departureLoadingDuration (metrics st)
     ∧ departureLoadingErrors (metrics st') = (n + departureLoadingErrors (metrics st))%nat)
  ∧ ((∀ j, (j < n)%nat → snd (RefreshParkings (w j) st uri) ≠ None) →
     ∃ st' evs, RefreshParkingLoop n w st uri d = (Looping, st', evs)
       ∧ manager st' = manager st
       ∧ parkingsLoadingDuration (metrics st') = parkingsLoadingDuration (metrics st)
       ∧ parkingsLoadingErrors (metrics st') = (n + parkingsLoadingErrors (metrics st))%nat)
  ∧ ((∀ j, (j < n)%nat → snd (RefreshEquipments (w j) st uri) ≠ None) →
     ∃ st' evs, RefreshEquipmentLoop n w st uri d = (Looping, st', evs)
       ∧ manager st' = manager st
       ∧ equipmentsLoadingDuration (metrics st') = equipmentsLoadingDuration (metrics st)
       ∧ equipmentsLoadingErrors (metrics st')
         = (n + equipmentsLoadingErrors (metrics st))%nat).
Proof.
  split; [|split].
  - intros Hd Hfail. rewrite (RefreshDepartureLoop_iterations _ _ _ _ _ Hd).
    pose proof (iterations_all_fail _ DeparturesFeed
                  "Error while reloading departures data: " "Departure data updated"
                  (λ st, (manager st, departureLoadingDuration (metrics st)))
                  (RefreshDepartures_outcome uri) (RefreshDepartures_kept uri)
                  n w st d Hfail) as H1.
    pose proof (iterations_failures _ DeparturesFeed
                  "Error while reloading departures data: " "Departure data updated"
                  (λ st, departureLoadingErrors (metrics st)) n w st d
                  (RefreshDepartures_errors uri)) as H2.
    pose proof (iterations_successes _ DeparturesFeed
                  "Error while reloading departures data: " "Departure data updated"
                  (λ st, length (departureLoadingDuration (metrics st))) n w st d
                  (RefreshDepartures_durations uri)) as H3.
    destruct (iterations _ _ _ _ n w st d) as [st1 evs1]. simpl in *.
    injection H1 as Hm Hdur. exists st1, evs1. rewrite Hdur in H3.
    split; [done|]. split; [done|]. split; [done|]. lia.
  - intros Hfail. rewrite RefreshParkingLoop_iterations.
    pose proof (iterations_all_fail _ ParkingsFeed
                  "Error while reloading parking data: " "Parking data updated"
                  (λ st, (manager st, parkingsLoadingDuration (metrics st)))
                  (RefreshParkings_outcome uri) (RefreshParkings_kept uri)
                  n w st d Hfail) as H1.
    pose proof (iterations_failures _ ParkingsFeed
                  "Error while reloading parking data: " "Parking data updated"
                  (λ st, parkingsLoadingErrors (metrics st)) n w st d
                  (RefreshParkings_errors uri)) as H2.
    pose proof (iterations_successes _ ParkingsFeed
                  "Error while reloading parking data: " "Parking data updated"
                  (λ st, length (parkingsLoadingDuration (metrics st))) n w st d
                  (RefreshParkings_durations uri)) as H3.
    destruct (iterations _ _ _ _ n w st d) as [st1 evs1]. simpl in *.
    injection H1 as Hm Hdur. exists st1, evs1. rewrite Hdur in H3.
    split; [done|]. split; [done|]. split; [done|]. lia.
  - intros Hfail. rewrite RefreshEquipmentLoop_iterations.
    pose proof (iterations_all_fail _ EquipmentsFeed
                  "Error while reloading equipment data: " "Equipment data updated"
                  (λ st, (manager st, equipmentsLoadingDuration (metrics st)))
                  (RefreshEquipments_outcome uri) (RefreshEquipments_kept uri)
                  n w st d Hfail) as H1.
    pose proof (iterations_failures _ EquipmentsFeed
                  "Error while reloading equipment data: " "Equipment data updated"
                  (λ st, equipmentsLoadingErrors (metrics st)) n w st d
                  (RefreshEquipments_errors uri)) as H2.
    pose proof (iterations_successes _ EquipmentsFeed
                  "Error while reloading equipment data: " "Equipment data updated"
                  (λ st, length (equipmentsLoadingDuration (metrics st))) n w st d
                  (RefreshEquipments_durations uri)) as H3.
    destruct (iterations _ _ _ _ n w st d) as [st1 evs1]. simpl in *.
    injection H1 as Hm Hdur. exists st1, evs1. rewrite Hdur in H3.
    split; [done|]. split; [done|]. split; [done|]. lia.
Qed.

Lemma RefreshDepartures_stored uri w st st' :
  snd (RefreshDepartures w st uri) = None →
  departures (manager (fst (RefreshDepartures w st uri)))
  = departures (manager (fst (RefreshDepartures w st' uri))).
Proof. destruct (RefreshDepartures_cases w uri) as [[e He]|[x He]]; by rewrite !He. Qed.

Lemma RefreshParkings_stored uri w st st' :
  snd (RefreshParkings w st uri) = None →
  parkingsData (manager (fst (RefreshParkings w st uri)))
  = parkingsData (manager (fst (RefreshParkings w st' uri))).
Proof. destruct (RefreshParkings_cases w uri) as [[e He]|[x He]]; by rewrite !He. Qed.

Lemma RefreshEquipments_stored uri w st st' :
  snd (RefreshEquipments w st uri) = None →
  equipments (manager (fst (RefreshEquipments w st uri)))
  = equipments (manager (fst (RefreshEquipments w st' uri))).
Proof. destruct (RefreshEquipments_cases w uri) as [[e He]|[x He]]; by rewrite !He. Qed.

Lemma RefreshDepartures_slot_kept uri w st :
  snd (RefreshDepartures w st uri) ≠ None →
  departures (manager (fst (RefreshDepartures w st uri))) = departures (manager st).
Proof. destruct (RefreshDepartures_cases w uri) as [[e He]|[x He]]; by rewrite !He. Qed.

Lemma RefreshParkings_slot_kept uri w st :
  snd (RefreshParkings w st uri) ≠ None →
  parkingsData (manager (fst (RefreshParkings w st uri))) = parkingsData (manager st).
Proof. destruct (RefreshParkings_cases w uri) as [[e He]|[x He]]; by rewrite !He. Qed.

Lemma RefreshEquipments_slot_kept uri w st :
  snd (RefreshEquipments w st uri) ≠ None →
  equipments (manager (fst (RefreshEquipments w st uri))) = equipments (manager st).
Proof. destruct (RefreshEquipments_cases w uri) as [[e He]|[x He]]; by rewrite !He. Qed.

(** X9. A loop serves the last good snapshot.  When the cycle of
    iteration [k] succeeds and every later cycle among the first [n]
    fails, the snapshot of the feed after [n] iterations is the one the
    cycle of iteration [k] stores: what the cycles before it stored is
    gone, and the failures after it have not touched it. *)
Theorem loops_serve_last_good_snapshot (n k : nat) (w : nat → World) st uri (d : Z) :
  (k < n)%nat →
  ((time.Second ≤ d)%Z →
   snd (RefreshDepartures (w k) st uri) = None →
   (∀ j, (k < j < n)%nat → snd (RefreshDepartures (w j) st uri) ≠ None) →
   ∀ p st' evs, RefreshDepartureLoop n w st uri d = (p, st', evs) →
     departures (manager st')
     = departures (manager (fst (RefreshDepartures (w k) st uri))))
  ∧ (snd (RefreshParkings (w k) st uri) = None →
     (∀ j, (k < j < n)%nat → snd (RefreshParkings (w j) st uri) ≠ None) →
     ∀ p st' evs, RefreshParkingLoop n w st uri d = (p, st', evs) →
       parkingsData (manager st')
       = parkingsData (manager (fst (RefreshParkings (w k) st uri))))
  ∧ (snd (RefreshEquipments (w k) st uri) = None →
     (∀ j, (k < j < n)%nat → snd (RefreshEquipments (w j) st uri) ≠ None) →
     ∀ p st' evs, RefreshEquipmentLoop n w st uri d = (p, st', evs) →
       equipments (manager st')
       = equipments (manager (fst (RefreshEquipments (w k) st uri)))).
Proof.
  intros Hk. split; [|split].
  - intros Hd Hok Hfail p st' evs. rewrite (RefreshDepartureLoop_iterations _ _ _ _ _ Hd).
    pose proof (iterations_last_success _ DeparturesFeed
                  "Error while reloading departures data: " "Departure data updated"
                  (λ st, departures (manager st))
                  (RefreshDepartures_outcome uri) (RefreshDepartures_slot_kept uri)
                  (RefreshDepartures_stored uri) n k w st d Hk Hok Hfail) as H.
    destruct (iterations _ _ _ _ n w st d) as [st1 evs1]. by intros [= <- <- <-].
  - intros Hok Hfail p st' evs. rewrite RefreshParkingLoop_iterations.
    pose proof (iterations_last_success _ ParkingsFeed
                  "Error while reloading parking data: " "Parking data updated"
                  (λ st, parkingsData (manager st))
                  (RefreshParkings_outcome uri) (RefreshParkings_slot_kept uri)
                  (RefreshParkings_stored uri) n k w st d Hk Hok Hfail) as H.
    destruct (iterations _ _ _ _ n w st d) as [st1 evs1]. by intros [= <- <- <-].
  - intros Hok Hfail p st' evs. rewrite RefreshEquipmentLoop_iterations.
    pose proof (iterations_last_success _ EquipmentsFeed
                  "Error while reloading equipment data: " "Equipment data updated"
                  (λ st, equipments (manager st))
                  (RefreshEquipments_outcome uri) (RefreshEquipments_slot_kept uri)
                  (RefreshEquipments_stored uri) n k w st d Hk Hok Hfail) as H.
    destruct (iterations _ _ _ _ n w st d) as [st1 evs1]. by intros [= <- <- <-].
Qed.

(** ** [main]: the eager loads *)




(** ** The equipments: all the elements or none, and how many records *)

Lemma rangeEquipments_all updatedAt location es m :
  (∃ m', rangeEquipments updatedAt location es m = Ok m') ↔
  ∀ e, e ∈ es → ∃ ed, NewEquipmentDetail e updatedAt location = Ok ed.
Proof.
  revert m. induction es as [|e es IH]; intros m; simpl.
  - split; [by intros _ e ?%elem_of_nil|by eauto].
  - destruct (NewEquipmentDetail e updatedAt location) as [ed|err] eqn:He.
    + rewrite IH. split.
      * intros H e' [->|Hin]%elem_of_cons; [by eauto|by apply H].
      * intros H e' Hin. apply H. by apply elem_of_cons; right.
    + split; [by intros [m' ?]|]. intros H.
      destruct (H e) as [ed Hed]; [by apply elem_of_cons; left|]. congruence.
Qed.

Lemma rangeEquipments_first_error updatedAt location pre e post err m :
  (∀ e', e' ∈ pre → ∃ ed, NewEquipmentDetail e' updatedAt location = Ok ed) →
  NewEquipmentDetail e updatedAt location = Err err →
  rangeEquipments updatedAt location (pre ++ e :: post) m = Err err.
Proof.
  intros Hpre He. rewrite rangeEquipments_app.
  apply (rangeEquipments_all updatedAt location pre m) in Hpre as [m' ->].
  simpl. by rewrite He.
Qed.

(** X11. The equipment loader takes all the elements of a document or
    none.  For a document that is decoded and whose date and hour are
    understood, [LoadXmlData] returns records exactly when
    [NewEquipmentDetail] accepts every element of the document, and
    otherwise it returns the error of the first element, in the order of
    the traversal, that [NewEquipmentDetail] refuses: the records built
    before it are dropped. *)
Theorem equipments_all_or_nothing w file location root updatedAt :
  LoadLocation w "Europe/Paris" = Ok location →
  Decode getCharsetReader file = Ok root →
  CalculateDate (Root_Info root) location = Ok updatedAt →
  ((∃ l, LoadXmlData w file = Ok l) ↔
   ∀ e, e ∈ traversal root → ∃ ed, NewEquipmentDetail e updatedAt location = Ok ed)
  ∧ (∀ pre e post err, traversal root = pre ++ e :: post →
       (∀ e', e' ∈ pre → ∃ ed, NewEquipmentDetail e' updatedAt location = Ok ed) →
       NewEquipmentDetail e updatedAt location = Err err →
       LoadXmlData w file = Err err).
Proof.
  intros Hloc Hdec Hdate. unfold LoadXmlData. rewrite Hloc, Hdec, Hdate, rangeLines_flat.
  fold (traversal root). split.
  - rewrite <- (rangeEquipments_all updatedAt location (traversal root) ∅).
    destruct (rangeEquipments updatedAt location (traversal root) ∅) as [m|err].
    + split; intros _; by eexists.
    + split; by intros [? ?].
  - intros pre e post err -> Hpre He.
    by rewrite (rangeEquipments_first_error _ _ _ _ _ _ _ Hpre He).
Qed.

Lemma built_IDs updatedAt location es eds :
  (∀ e t loc ed, NewEquipmentDetail e t loc = Ok ed → ID ed = srcID e) →
  Forall2 (built updatedAt location) es eds → ID <$> eds = srcID <$> es.
Proof.
  intros HID Hall. induction Hall as [|e ed es eds He _ IH]; [done|].
  rewrite !fmap_cons. by rewrite IH, (HID _ _ _ _ He).
Qed.

Lemma assign_is_Some eds m id :
  is_Some (assign m eds !! id) ↔ id ∈ ID <$> eds ∨ is_Some (m !! id).
Proof.
  revert m. induction eds as [|ed eds IH]; intros m; simpl.
  - split; [by right|]. by intros [?%elem_of_nil|?].
  - rewrite IH, lookup_insert_is_Some, elem_of_cons. split.
    + intros [?|[?|[? ?]]]; [by left; right|by left; left|by right].
    + intros [[?|?]|?]; [by right; left|by left|].
      destruct (decide (ID ed = id)); [by right; left|by right; right].
Qed.

Lemma assign_to_list eds m :
  NoDup (ID <$> eds) → (∀ ed, ed ∈ eds → m !! ID ed = None) →
  map_to_list (assign m eds) ≡ₚ map_to_list m ++ ((λ ed, (ID ed, ed)) <$> eds).
Proof.
  revert m. induction eds as [|ed eds IH]; intros m Hnd Hfresh; simpl.
  - by rewrite app_nil_r.
  - apply NoDup_cons in Hnd as [Hed Hnd]. rewrite IH; [|done|].
    + rewrite map_to_list_insert by (apply Hfresh, elem_of_cons; by left).
      simpl. by rewrite <- Permutation_middle.
    + intros ed' Hin. rewrite lookup_insert_ne.
      * apply Hfresh, elem_of_cons. by right.
      * intros Heq. apply Hed. rewrite Heq. by apply list_elem_of_fmap_2.
Qed.

(** X12. Without the order of the map, what [LoadXmlData] returns is
    known by its size: as many records as there are different
    identifiers among the elements of the document, so never more than
    there are elements; and when no identifier comes twice, the records
    built from the elements, all of them. *)
Theorem equipments_as_many_as_identifiers w file l :
  (∀ m, mapRange m ≡ₚ map_to_list m) →
  (∀ e t loc ed, NewEquipmentDetail e t loc = Ok ed → ID ed = srcID e) →
  LoadXmlData w file = Ok l →
  ∃ location root updatedAt eds,
    LoadLocation w "Europe/Paris" = Ok location
    ∧ Decode getCharsetReader file = Ok root
    ∧ CalculateDate (Root_Info root) location = Ok updatedAt
    ∧ Forall2 (built updatedAt location) (traversal root) eds
    ∧ length l = length (remove_dups (srcID <$> traversal root))
    ∧ (length l ≤ length (traversal root))%nat
    ∧ (NoDup (srcID <$> traversal root) → l ≡ₚ eds).
Proof.
  intros Hrange HID. unfold LoadXmlData.
  destruct (LoadLocation w "Europe/Paris") as [location|] eqn:Hloc; [|done].
  destruct (Decode getCharsetReader file) as [root|] eqn:Hdec; [|done].
  destruct (CalculateDate (Root_Info root) location) as [updatedAt|] eqn:Hdate; [|done].
  rewrite rangeLines_flat.
  destruct (rangeEquipments _ _ _ ∅) as [m|] eqn:Hm; [|done].
  intros [= <-]. exists location, root, updatedAt.
  apply rangeEquipments_Ok in Hm as (eds & Hall & ->).
  fold (traversal root) in Hall. exists eds. do 4 (split; [done|]).
  pose proof (built_IDs _ _ _ _ HID Hall) as HIDs.
  assert (length (snd <$> mapRange (assign ∅ eds))
          = length (remove_dups (srcID <$> traversal root))) as Hlen.
  { rewrite length_fmap, Hrange, <- (length_fmap fst).
    apply Permutation_length, NoDup_Permutation.
    - apply NoDup_fst_map_to_list.
    - apply NoDup_remove_dups.
    - intros id. rewrite elem_of_remove_dups, <- HIDs, list_elem_of_fmap. split.
      + intros ([k v] & -> & Hin%elem_of_map_to_list). simpl.
        destruct (proj1 (assign_is_Some eds ∅ k)) as [?|[? Hempty]]; [by eexists|done|].
        by rewrite lookup_empty in Hempty.
      + intros Hin. destruct (proj2 (assign_is_Some eds ∅ id)) as [ed Hed]; [by left|].
        exists (id, ed). split; [done|]. by apply elem_of_map_to_list. }
  split; [done|]. split.
  - rewrite Hlen, <- (length_fmap srcID (traversal root)).
    apply submseteq_length, NoDup_submseteq; [apply NoDup_remove_dups|].
    intros id. by rewrite elem_of_remove_dups.
  - intros Hnd. rewrite <- HIDs in Hnd. rewrite Hrange, (assign_to_list eds ∅ Hnd).
    + rewrite map_to_list_empty. simpl. rewrite <- list_fmap_compose.
      by rewrite list_fmap_id.
    + intros ed _. apply lookup_empty.
Qed.

End sytralrt.

(** * The calendar of package [time] *)

Section calendar.
Local Open Scope Z_scope.
Import time.

Lemma div_eq a b q r : 0 <= r < b → a = b * q + r → a / b = q.
Proof. intros Hr ->. symmetry. by apply (Z.div_unique _ b q r); [left|]. Qed.


Ltac div_is q r :=
  match goal with
  | |- context [?a / ?b] => rewrite (div_eq a b q r) by lia
  end.












(** [time.Date] on values that need no carrying. *)
Lemma Date_in_range year month day hour min sec ns l :
  1 <= month <= 12 → 0 <= hour < 24 → 0 <= min < 60 → 0 <= sec < 60 →
  0 <= ns < 1000000000 →
  Date year month day hour min sec ns l
  = {| unix := zoneAdjust l (wallSeconds year month day hour min sec - unixToInternal);
       nsec := ns; loc := l |}.
Proof.
  intros Hm Hh Hmi Hs Hns. unfold Date, norm. cbv beta iota zeta.
  rewrite (Z.div_small (month - 1) 12), (Z.mod_small (month - 1) 12) by lia.
  rewrite (Z.div_small ns), (Z.mod_small ns) by lia.
  rewrite !Z.add_0_r, (Z.div_small sec 60), (Z.mod_small sec 60) by lia.
  rewrite !Z.add_0_r, (Z.div_small min 60), (Z.mod_small min 60) by lia.
  rewrite !Z.add_0_r, (Z.div_small hour 24), (Z.mod_small hour 24) by lia.
  rewrite !Z.add_0_r. by replace (month - 1 + 1) with month by lia.
Qed.


(** *** What the parsers let through *)

Lemma digit_range c : isDigit c = true → 0 <= digit c <= 9.
Proof.
  unfold isDigit, digit. rewrite andb_true_iff, !Nat.leb_le. lia.
Qed.

Lemma getnum_range s fixed n rest :
  getnum s fixed = Some (n, rest) → 0 <= n < 100.
Proof.
  unfold getnum. destruct s as [|c0 s1]; [done|].
  destruct (isDigit c0) eqn:H0; [|done]. apply digit_range in H0.
  destruct s1 as [|c1 s2].
  - destruct fixed; intros; simplify_eq; lia.
  - destruct (isDigit c1) eqn:H1.
    + apply digit_range in H1. intros; simplify_eq; lia.
    + destruct fixed; intros; simplify_eq; lia.
Qed.

Lemma leadingInt_range s acc n v n' rest :
  leadingInt acc n s = (v, n', rest) →
  0 <= acc < 10 ^ Z.of_nat n → 0 <= v < 10 ^ Z.of_nat n'.
Proof.
  revert acc n. induction s as [|c s IH]; intros acc n; simpl.
  - by intros [= <- <- <-].
  - destruct (isDigit c) eqn:Hc; [|by intros [= <- <- <-]].
    apply digit_range in Hc. intros Hl Hacc. apply (IH _ _ Hl).
    rewrite Nat2Z.inj_succ, Z.pow_succ_r by lia. lia.
Qed.

Lemma getfrac_range s ns rest :
  getfrac s = Some (Some (ns, rest)) → 0 <= ns < 1000000000.
Proof.
  unfold getfrac. destruct s as [|c0 [|c1 s2]]; [done..|].
  destruct (Ascii.eqb c0 "." && isDigit c1); [|done].
  destruct (leadingInt 0 0 (String c1 s2)) as [[v n] rest'] eqn:Hl.
  apply leadingInt_range in Hl; [|simpl; lia].
  destruct (Z.leb_spec 1000000000 v); [done|].
  destruct (Nat.leb_spec n 9); intros [= <- <-]; [|lia].
  split; [apply Z.mul_nonneg_nonneg; [lia|apply Z.pow_nonneg; lia]|].
  change 1000000000 with (10 ^ 9).
  replace 9 with (Z.of_nat n + (9 - Z.of_nat n)) at 2 by lia.
  rewrite Z.pow_add_r by lia.
  apply Z.mul_lt_mono_pos_r; [apply Z.pow_pos_nonneg; lia|lia].
Qed.

Lemma parseDate_range value year month day :
  parseDate value = Some (year, month, day) →
  1 <= month <= 12 ∧ 1 <= day <= daysIn month year.
Proof.
  unfold parseDate.
  destruct (getyear value) as [[y v]|]; [simpl|done].
  destruct (skip "-" v) as [v1|]; [simpl|done].
  destruct (getnum v1 true) as [[m v2]|]; [simpl|done].
  destruct (Z.leb_spec m 0); [done|]. destruct (Z.ltb_spec 12 m); [done|]. simpl.
  destruct (skip "-" v2) as [v3|]; [simpl|done].
  destruct (getnum v3 true) as [[d v4]|]; [simpl|done].
  destruct v4; [|done].
  destruct (Z.ltb_spec d 1); [done|]. destruct (Z.ltb_spec (daysIn m y) d); [done|].
  simpl. intros [= <- <- <-]. lia.
Qed.

Lemma parseClock_range value hour min sec ns :
  parseClock value = Some (hour, min, sec, ns) →
  0 <= hour < 24 ∧ 0 <= min < 60 ∧ 0 <= sec < 60 ∧ 0 <= ns < 1000000000.
Proof.
  unfold parseClock.
  destruct (getnum value false) as [[h v]|] eqn:Hh; [simpl|done].
  apply getnum_range in Hh.
  destruct (Z.leb_spec 24 h); [done|].
  destruct (skip ":" v) as [v1|]; [simpl|done].
  destruct (getnum v1 true) as [[m v2]|] eqn:Hm; [simpl|done].
  apply getnum_range in Hm.
  destruct (Z.leb_spec 60 m); [done|].
  destruct (skip ":" v2) as [v3|]; [simpl|done].
  destruct (getnum v3 true) as [[s v4]|] eqn:Hs; [simpl|done].
  apply getnum_range in Hs.
  destruct (Z.leb_spec 60 s); [done|].
  destruct (getfrac v4) as [[[n v5]|]|] eqn:Hf; simpl; [|done|].
  - apply getfrac_range in Hf. destruct v5; [|done]. intros [= <- <- <- <-]. lia.
  - destruct v4; [|done]. intros [= <- <- <- <-]. lia.
Qed.
(** *** Readings that exist

    In a sorted table, a reading exists whenever, taken back by the offset
    found for it, it falls inside the period in which that offset is in
    use. *)

Lemma lookupFrom_start cur start l sec off s e :
  Forall (λ t, start <= when t) l →
  StronglySorted (λ a b, when a < when b) l →
  lookupFrom cur start l sec = (off, s, e) → start <= s.
Proof.
  revert cur start. induction l as [|t l IH]; intros cur start Hall Hs; simpl.
  - intros [= <- <- <-]. lia.
  - apply Forall_cons in Hall as [Ht Hall]. apply StronglySorted_inv in Hs as [Hs Hlt].
    destruct (Z.ltb_spec sec (when t)); [intros [= <- <- <-]; lia|].
    intros Hl. apply IH in Hl; [lia| |done].
    eapply Forall_impl; [exact Hlt|]. simpl. intros; lia.
Qed.

Lemma lookupFrom_period cur start l sec sec' off s e :
  Forall (λ t, start <= when t) l →
  StronglySorted (λ a b, when a < when b) l →
  lookupFrom cur start l sec = (off, s, e) →
  s <= sec' < e →
  lookupFrom cur start l sec' = (off, s, e).
Proof.
  revert cur start. induction l as [|t l IH]; intros cur start Hall Hs; simpl; [done|].
  apply Forall_cons in Hall as [Ht Hall]. apply StronglySorted_inv in Hs as [Hs Hlt].
  assert (Forall (λ t', when t <= when t') l) as Hle.
  { eapply Forall_impl; [exact Hlt|]. simpl. intros; lia. }
  destruct (Z.ltb_spec sec (when t)).
  - intros [= <- <- <-] Hsec'. by destruct (Z.ltb_spec sec' (when t)); [|lia].
  - intros Hl Hsec'. pose proof (lookupFrom_start _ _ _ _ _ _ _ Hle Hs Hl).
    destruct (Z.ltb_spec sec' (when t)); [lia|]. by apply IH.
Qed.

Lemma shows_within_period l year month day hour min sec :
  1 <= month <= 12 → 0 <= hour < 24 → 0 <= min < 60 → 0 <= sec < 60 →
  Forall (λ t, alpha <= when t) (tx l) →
  StronglySorted (λ a b, when a < when b) (tx l) →
  (let u := wallSeconds year month day hour min sec - unixToInternal in
   let '(off, start, end_) := lookup l u in
   start <= u - off < end_) →
  shows l year month day hour min sec.
Proof.
  intros Hm Hh Hmi Hs Hall Hsorted Hin. unfold shows. rewrite Date_in_range by lia.
  unfold abs, zoneAdjust, offsetAt. cbn [unix loc]. cbv zeta in Hin.
  set (u := wallSeconds year month day hour min sec - unixToInternal) in *.
  destruct (lookup l u) as [[off start] end_] eqn:Hl.
  destruct (Z.eqb_spec off 0) as [->|Hne].
  - rewrite Hl. simpl. lia.
  - destruct (Z.ltb_spec (u - off) start); [lia|].
    destruct (Z.leb_spec end_ (u - off)); [lia|].
    unfold lookup in *. rewrite (lookupFrom_period _ _ _ _ (u - off) _ _ _ Hall Hsorted Hl)
      by lia.
    simpl. lia.
Qed.
End calendar.

(** ** [CalculateDate] *)


(** * The delimited loader on files of plain fields *)

Lemma append_cons c (s t : string) : String c s +:+ t = String c (s +:+ t).
Proof. done. Qed.

Lemma append_empty_r (s : string) : s +:+ EmptyString = s.
Proof. induction s as [|c s IH]; [done|]. by rewrite append_cons, IH. Qed.

Lemma append_assoc (s t u : string) : (s +:+ t) +:+ u = s +:+ (t +:+ u).
Proof. induction s as [|c s IH]; [done|]. by rewrite !append_cons, IH. Qed.

Lemma validDelim_spec comma :
  validDelim comma = true → comma ≠ DQUOTE ∧ comma ≠ CR ∧ comma ≠ LF.
Proof.
  unfold validDelim. rewrite !andb_true_iff, !negb_true_iff, !Ascii.eqb_neq. tauto.
Qed.

Lemma plainChar_spec comma c :
  plainChar comma c = true →
  Ascii.eqb c comma = false ∧ Ascii.eqb c DQUOTE = false
  ∧ Ascii.eqb c LF = false ∧ Ascii.eqb c CR = false.
Proof. unfold plainChar. rewrite !andb_true_iff, !negb_true_iff. tauto. Qed.

Section delimited.
Variable comma : ascii.
Hypothesis valid : validDelim comma = true.

(** A plain field is read character by character up to the delimiter or
    the line feed that follows it. *)
Lemma parseField_plain f :
  ∀ m fields buf, m ≠ csv.InQuoted → plainField comma f = true →
    (∀ rest, csv.parseField comma m fields buf (f +:+ String comma rest)
             = csv.parseField comma csv.AtFieldStart (fields ++ [buf +:+ f]) EmptyString rest)
    ∧ csv.parseField comma m fields buf (f +:+ String LF EmptyString)
      = csv.Done (fields ++ [buf +:+ f]).
Proof.
  destruct (validDelim_spec comma valid) as (Hq & Hcr & Hlf).
  induction f as [|c f IH]; intros m fields buf Hm Hplain.
  - apply Ascii.eqb_neq in Hq, Hlf. rewrite append_empty_r. split.
    + intros rest. change (EmptyString +:+ String comma rest) with (String comma rest).
      cbn [csv.parseField]. rewrite Ascii.eqb_refl, Hq. by destruct m.
    + change (EmptyString +:+ String LF EmptyString) with (String LF EmptyString).
      cbn [csv.parseField]. rewrite (eqb_sym LF comma), Hlf.
      change (csv.atLineEnd LF EmptyString) with true.
      change (Ascii.eqb LF DQUOTE) with false. by destruct m.
  - simpl in Hplain. apply andb_true_iff in Hplain as [Hc Hplain].
    apply plainChar_spec in Hc as (Hc1 & Hc2 & Hc3 & Hc4).
    destruct (IH csv.InBare fields (csv.snoc buf c) ltac:(done) Hplain) as [IH1 IH2].
    assert (csv.snoc buf c +:+ f = buf +:+ String c f) as Happ.
    { unfold csv.snoc. by rewrite append_assoc. }
    rewrite Happ in IH1, IH2.
    split; [intros rest|]; rewrite append_cons; simpl; unfold csv.atLineEnd;
      rewrite Hc1, Hc2, Hc3; simpl; destruct m; done.
Qed.

Lemma parseField_row row :
  ∀ fields, row ≠ [] → Forall (λ f, plainField comma f = true) row →
    csv.parseField comma csv.AtFieldStart fields EmptyString
      (joinFields comma row +:+ String LF EmptyString)
    = csv.Done (fields ++ row).
Proof.
  induction row as [|f row IH]; intros fields Hne Hall; [done|].
  apply Forall_cons in Hall as [Hf Hall].
  destruct (parseField_plain f csv.AtFieldStart fields EmptyString ltac:(done) Hf)
    as [H1 H2].
  destruct row as [|g row].
  - simpl. by rewrite H2.
  - change (joinFields comma (f :: g :: row))
      with (f +:+ String comma (joinFields comma (g :: row))).
    rewrite append_assoc, append_cons, H1, IH by done.
    by rewrite <- app_assoc.
Qed.

Lemma noBreak_append s t : noBreak (s +:+ t) = noBreak s && noBreak t.
Proof.
  induction s as [|c s IH]; [done|]. rewrite append_cons. simpl.
  by rewrite IH, andb_assoc.
Qed.

Lemma plainField_noBreak f : plainField comma f = true → noBreak f = true.
Proof.
  induction f as [|c f IH]; [done|]. simpl. intros [Hc Hf]%andb_true_iff.
  apply plainChar_spec in Hc as (_ & _ & -> & ->). by rewrite IH.
Qed.

Lemma joinFields_noBreak row :
  Forall (λ f, plainField comma f = true) row → noBreak (joinFields comma row) = true.
Proof.
  destruct (validDelim_spec comma valid) as (_ & Hcr & Hlf).
  apply Ascii.eqb_neq in Hcr, Hlf.
  induction 1 as [|f row Hf Hall IH]; [done|]. destruct row as [|g row].
  - by apply plainField_noBreak.
  - change (joinFields comma (f :: g :: row))
      with (f +:+ String comma (joinFields comma (g :: row))).
    rewrite noBreak_append. cbn [noBreak]. rewrite Hlf, Hcr, IH.
    by rewrite plainField_noBreak.
Qed.

Lemma rawLines_line l rest :
  noBreak l = true →
  csv.rawLines (l +:+ String LF rest) = (l +:+ String LF EmptyString) :: csv.rawLines rest.
Proof.
  induction l as [|c l IH]; [done|]. rewrite !append_cons. simpl.
  intros [[Hc _]%andb_true_iff Hl]%andb_true_iff. apply negb_true_iff in Hc.
  by rewrite Hc, IH.
Qed.

Lemma normalizeLine_line l :
  noBreak l = true →
  csv.normalizeLine (l +:+ String LF EmptyString) = l +:+ String LF EmptyString.
Proof.
  induction l as [|c l IH]; [done|]. rewrite !append_cons. simpl.
  intros [[_ Hc]%andb_true_iff Hl]%andb_true_iff. apply negb_true_iff in Hc.
  by rewrite Hc, IH.
Qed.

Lemma isEmptyLine_line l :
  l ≠ EmptyString → csv.isEmptyLine (l +:+ String LF EmptyString) = false.
Proof. destruct l as [|c [|c' l]]; done. Qed.

Lemma joinFields_nonempty row : joinFields comma row ≠ EmptyString → row ≠ [].
Proof. by destruct row. Qed.

(** The reader gives back the rows of a file of plain rows. *)
Lemma records_delimited rows :
  Forall (plainRow comma) rows →
  csv.records comma (delimited comma rows) = (λ row, (row, None)) <$> rows.
Proof.
  unfold csv.records. induction 1 as [|row rows [Hplain Hne] _ IH]; [done|].
  simpl. rewrite rawLines_line by by apply joinFields_noBreak.
  simpl. rewrite normalizeLine_line by by apply joinFields_noBreak.
  rewrite isEmptyLine_line by done.
  rewrite parseField_row by eauto using joinFields_nonempty.
  simpl. by rewrite IH.
Qed.
End delimited.

Arguments csv.checkFields : simpl never.

(** When every record passes the reader, the load is the consumption of
    the records, the first left out when it is skipped, then [Terminate]. *)
Lemma readLoop_all_pass {C : Type} `{!LineConsumer C} location fpr skip (c : C) src :
  Forall (λ raw, snd raw = None) src →
  ((0 < fpr)%Z → Forall (λ raw, Z.of_nat (length (fst raw)) = fpr) src) →
  (fpr = 0%Z → ∃ n, Forall (λ raw, length (fst raw) = n) src) →
  readLoop location fpr skip c src
  = finish (consumeAll location c (fst <$> (if skip then tail src else src))).
Proof.
  intros Hnone. revert fpr skip c.
  induction Hnone as [|[dst err] src Herr _ IH]; intros fpr skip c Hpos Hzero.
  { by destruct skip. }
  simpl in Herr. subst err. simpl.
  assert (∃ n, csv.checkFields fpr (dst, None) = ((dst, None), n)
               ∧ ((0 < n)%Z → Forall (λ raw, Z.of_nat (length (fst raw)) = n) src)
               ∧ (n = 0%Z → ∃ k, Forall (λ raw, length (fst raw) = k) src))
    as (n & -> & Hpos' & Hzero').
  { unfold csv.checkFields. destruct (Z.ltb_spec 0 fpr) as [Hlt|Hge].
    - specialize (Hpos Hlt). apply Forall_cons in Hpos as [Hdst Hpos]. simpl in Hdst.
      rewrite Hdst, Z.eqb_refl. simpl. exists fpr. split; [done|]. split; [done|]. lia.
    - destruct (Z.eqb_spec fpr 0) as [->|Hne]; simpl.
      + destruct (Hzero eq_refl) as [k Hk]. apply Forall_cons in Hk as [Hdst Hk].
        simpl in Hdst. exists (Z.of_nat (length dst)). split; [done|]. split.
        * intros _. eapply Forall_impl; [exact Hk|]. simpl. intros raw ->. by rewrite Hdst.
        * intros _. by exists k.
      + exists fpr. split; [done|]. split; [lia|done]. }
  destruct skip.
  - rewrite (IH n false c Hpos' Hzero'). done.
  - simpl. destruct (Consume c dst location) as [c' [e|]]; [done|].
    by rewrite (IH n false c' Hpos' Hzero').
Qed.

(** X13. A file of plain rows is handed to the consumer field by field.
    For a delimiter the reader accepts and rows of fields written without
    quoting, one row on each line, the reader gives back the rows as
    they were written, and when the rows have the number of fields the
    options ask for (any number when they ask for a negative one, the
    number of the first row when they ask for 0) the load is the
    consumption of the rows in order, the first left out when it is
    skipped, followed by [Terminate]. *)
Theorem plain_rows_are_handed_as_written {C : Type} `{!LineConsumer C}
    w location (c : C) options rows :
  LoadLocation w "Europe/Paris" = Ok location →
  validDelim (delimiter options) = true →
  Forall (plainRow (delimiter options)) rows →
  ((0 < nbFields options)%Z →
   Forall (λ row, Z.of_nat (length row) = nbFields options) rows) →
  (nbFields options = 0%Z → ∃ n, Forall (λ row, length row = n) rows) →
  csv.records (delimiter options) (delimited (delimiter options) rows)
  = (λ row, (row, None)) <$> rows
  ∧ LoadDataWithOptions w (delimited (delimiter options) rows) c options
    = finish (consumeAll location c (if skipFirstLine options then tail rows else rows)).
Proof.
  intros Hloc Hvalid Hrows Hpos Hzero.
  pose proof (records_delimited _ Hvalid rows Hrows) as Hrec. split; [done|].
  rewrite (LoadDataWithOptions_eq _ _ _ _ _ Hloc), Hrec, readLoop_all_pass.
  - f_equal. f_equal. destruct (skipFirstLine options), rows as [|row rows']; simpl;
      try done; rewrite <- list_fmap_compose; by rewrite list_fmap_id.
  - apply Forall_fmap. by apply Forall_true.
  - intros Hlt. apply Forall_fmap. exact (Hpos Hlt).
  - intros Heq. destruct (Hzero Heq) as [n Hn]. exists n. by apply Forall_fmap.
Qed.

(** X14. A negative field count checks nothing.  With [nbFields] under
    0, records of any numbers of fields pass the reader: when every
    record is read without a quoting error the load is the consumption of
    all of them, the first left out when it is skipped, and it fails only
    if the consumer refuses a line. *)
Theorem negative_field_count_checks_nothing {C : Type} `{!LineConsumer C}
    w location file (c : C) options :
  LoadLocation w "Europe/Paris" = Ok location →
  validDelim (delimiter options) = true →
  (nbFields options < 0)%Z →
  Forall (λ raw, snd raw = None) (csv.records (delimiter options) file) →
  let records := csv.records (delimiter options) file in
  let handed := fst <$> (if skipFirstLine options then tail records else records) in
  LoadDataWithOptions w file c options = finish (consumeAll location c handed)
  ∧ (∀ e, snd (LoadDataWithOptions w file c options) = Some e →
       snd (consumeAll location c handed) = Some e).
Proof.
  intros Hloc Hvalid Hneg Hall records handed.
  assert (LoadDataWithOptions w file c options = finish (consumeAll location c handed))
    as Hload.
  { rewrite (LoadDataWithOptions_eq _ _ _ _ _ Hloc). apply readLoop_all_pass; [done|lia..]. }
  split; [done|]. rewrite Hload. by destruct (consumeAll location c handed) as [c' [e'|]].
Qed.

(** * The calls the loader makes on the consumer *)

Lemma readLoop_tracer {C : Type} `{!LineConsumer C} location fpr skip (c : C) tr src :
  ∃ handed,
    readLoop location fpr skip ((c, tr) : tracer C) src
    = ((fst (readLoop location fpr skip c src),
        tr ++ (Consumed <$> handed)
           ++ match snd (readLoop location fpr skip c src) with
              | None => [Terminated]
              | Some _ => []
              end),
       snd (readLoop location fpr skip c src))
    ∧ handed `prefix_of` (fst <$> (if skip then tail src else src)).
Proof.
  revert fpr skip c tr. induction src as [|raw src IH]; intros fpr skip c tr.
  - exists []. split; [done|]. by destruct skip.
  - simpl. destruct (csv.checkFields fpr raw) as [[line err] n] eqn:Hc.
    destruct err as [e|].
    { exists []. simpl. rewrite app_nil_r. split; [done|apply prefix_nil]. }
    assert (raw = (line, None)) as -> by eauto using checkFields_None.
    destruct skip.
    { destruct (IH n false c tr) as (handed & -> & Hpre). by exists handed. }
    simpl. destruct (Consume c line location) as [c' [e|]].
    { exists [line]. split; [done|]. by apply prefix_cons, prefix_nil. }
    destruct (IH n false c' (tr ++ [Consumed line])) as (handed & -> & Hpre).
    exists (line :: handed). rewrite <- app_assoc. split; [done|]. by apply prefix_cons.
Qed.

(** X15. [Terminate] is called once, last, and only on success.  With
    a delimiter the reader accepts, the calls the loader makes on a
    consumer are [Consume] for a run of
    records from the start of those to hand over, in their order, then
    [Terminate] when the load returns no error, and nothing more when it
    returns one: a load that fails never finalizes the consumer, and no
    line is consumed after [Terminate]. *)
Theorem Terminate_once_and_only_on_success {C : Type} `{!LineConsumer C}
    w file (c : C) options :
  validDelim (delimiter options) = true →
  let r := LoadDataWithOptions w file c options in
  let records := csv.records (delimiter options) file in
  ∃ handed,
    LoadDataWithOptions w file ((c, []) : tracer C) options
    = ((fst r, (Consumed <$> handed)
               ++ match snd r with None => [Terminated] | Some _ => [] end),
       snd r)
    ∧ handed `prefix_of` (fst <$> (if skipFirstLine options then tail records else records)).
Proof.
  intros _ r records. subst r records. unfold LoadDataWithOptions.
  destruct (LoadLocation w "Europe/Paris") as [location|e].
  - apply (readLoop_tracer location _ _ c []).
  - exists []. split; [done|apply prefix_nil].
Qed.

(** * What [CalculateDate] refuses *)

Lemma Date_loc year month day hour min sec ns l :
  time.loc (time.Date year month day hour min sec ns l) = l.
Proof. done. Qed.

Lemma Date_nsec year month day hour min sec ns l :
  time.nsec (time.Date year month day hour min sec ns l) = (ns mod 1000000000)%Z.
Proof. done. Qed.

Lemma AddDate_nsec_loc t years months days :
  time.nsec (time.AddDate t years months days) = (time.nsec t mod 1000000000)%Z
  ∧ time.loc (time.AddDate t years months days) = time.loc t.
Proof.
  unfold time.AddDate. destruct (time.date t) as [[year month] day].
  destruct (time.Clock t) as [[hour min] sec]. by rewrite Date_loc, Date_nsec.
Qed.

(** X16. [CalculateDate] fails exactly on what does not parse, the date
    first.  A date that does not parse gives the parse error of the
    date, whatever the hour; a date that parses with an hour that does
    not gives the parse error of the hour.  What it accepts is a month
    from 1 to 12, a day that exists in that month of that year, an hour
    under 24, minutes and seconds under 60; the instant it returns is in
    the location it was given and keeps the fraction of a second of the
    hour. *)
Theorem CalculateDate_refuses_what_does_not_parse info location :
  (time.parseDate (Date info) = None →
   CalculateDate info location = Err (ErrTimeParse (Date info)))
  ∧ (time.parseDate (Date info) ≠ None → time.parseClock (Hour info) = None →
     CalculateDate info location = Err (ErrTimeParse (Hour info)))
  ∧ (∀ t, CalculateDate info location = Ok t →
       ∃ year month day hour min sec ns,
         time.parseDate (Date info) = Some (year, month, day)
         ∧ time.parseClock (Hour info) = Some (hour, min, sec, ns)
         ∧ (1 ≤ month ≤ 12 ∧ 1 ≤ day ≤ time.daysIn month year)%Z
         ∧ (0 ≤ hour < 24 ∧ 0 ≤ min < 60 ∧ 0 ≤ sec < 60 ∧ 0 ≤ ns < 1000000000)%Z
         ∧ time.nsec t = ns ∧ time.loc t = location).
Proof.
  unfold CalculateDate, time.ParseInLocation. split; [|split].
  - by intros ->.
  - intros Hdate ->. by destruct (time.parseDate (Date info)) as [[[y m] d]|].
  - intros t. destruct (time.parseDate (Date info)) as [[[year month] day]|] eqn:Hd; [|done].
    destruct (time.parseClock (Hour info)) as [[[[hour min] sec] ns]|] eqn:Hc; [|done].
    intros [= <-]. exists year, month, day, hour, min, sec, ns.
    pose proof (parseDate_range _ _ _ _ Hd) as Hdr.
    pose proof (parseClock_range _ _ _ _ _ Hc) as Hcr.
    do 4 (split; [done|]).
    destruct (AddDate_nsec_loc (time.Date 0 1 1 hour min sec ns location)
                (time.Year (time.Date year month day 0 0 0 0 location))
                (time.Month (time.Date year month day 0 0 0 0 location) - 1)
                (time.Day (time.Date year month day 0 0 0 0 location) - 1)) as [-> ->].
    rewrite Date_loc, Date_nsec, !Z.mod_mod by lia. split; [|done].
    apply Z.mod_small. lia.
Qed.

(** * The configuration *)

Lemma noneOf_spec args : noneOf args = true ↔ Forall (λ a, a = EmptyString) args.
Proof.
  induction args as [|a args IH]; simpl.
  - split; [by constructor|done].
  - destruct (String.eqb_spec a EmptyString) as [->|Hne]; simpl.
    + rewrite IH. split; [by constructor|]. by intros [_ ?]%Forall_cons.
    + split; [done|]. by intros [? _]%Forall_cons.
Qed.

Lemma feedURI_setURI config f g url :
  feedURI (setURI config g url) f = if decide (f = g) then url else feedURI config f.
Proof. by destruct f, g. Qed.

Lemma feedURIStr_setURI config f g url :
  feedURIStr (setURI config g url) f = feedURIStr config f.
Proof. by destruct f, g. Qed.

(** The fields of the configuration that [viper.Unmarshal] fills in. *)
Lemma parseURIs_settings parse entries config :
  let config' := fst (parseURIs parse entries config) in
  (∀ f, feedURIStr config' f = feedURIStr config f)
  ∧ DeparturesRefresh config' = DeparturesRefresh config
  ∧ ParkingsRefresh config' = ParkingsRefresh config
  ∧ EquipmentsRefresh config' = EquipmentsRefresh config
  ∧ JSONLog config' = JSONLog config
  ∧ LogLevel config' = LogLevel config.
Proof.
  cbv zeta. revert config. induction entries as [|[k g] entries IH]; intros config; [done|].
  simpl. destruct (parse k) as [url|].
  - destruct (IH (setURI config g url)) as (H1 & H2 & H3 & H4 & H5 & H6).
    split; [intros f; by rewrite H1, feedURIStr_setURI|].
    rewrite H2, H3, H4, H5, H6. by destruct g.
  - specialize (IH config). by destruct (parseURIs parse entries config).
Qed.

Lemma parseURIs_untouched parse entries config f :
  (∀ k, (k, f) ∈ entries → parse k = None) →
  feedURI (fst (parseURIs parse entries config)) f = feedURI config f.
Proof.
  revert config. induction entries as [|[k g] entries IH]; intros config Hf; [done|].
  assert (∀ k', (k', f) ∈ entries → parse k' = None) as Hf'.
  { intros k' Hin. apply Hf, elem_of_cons. by right. }
  simpl. destruct (parse k) as [url|] eqn:Hk.
  - rewrite (IH _ Hf'), feedURI_setURI. destruct (decide (f = g)) as [->|]; [|done].
    rewrite Hf in Hk; [done|]. apply elem_of_cons. by left.
  - specialize (IH config Hf'). by destruct (parseURIs parse entries config).
Qed.

Lemma parseURIs_set parse entries config f k url :
  NoDup (snd <$> entries) → (k, f) ∈ entries → parse k = Some url →
  feedURI (fst (parseURIs parse entries config)) f = url.
Proof.
  revert config. induction entries as [|[k0 g] entries IH]; intros config Hnd Hin Hk.
  { by apply elem_of_nil in Hin. }
  rewrite fmap_cons in Hnd. apply NoDup_cons in Hnd as [Hg Hnd]. simpl in Hg.
  apply elem_of_cons in Hin as [[= <- <-]|Hin].
  - simpl. rewrite Hk, parseURIs_untouched.
    + rewrite feedURI_setURI. by destruct (decide (f = f)).
    + intros k' Hin. destruct Hg. by apply (list_elem_of_fmap_2 snd _ (k', f)).
  - simpl. destruct (parse k0) as [url0|].
    + by apply IH.
    + specialize (IH config Hnd Hin Hk). by destruct (parseURIs parse entries config).
Qed.

(** The entries of the map of [GetConfig]: every key leads to one feed,
    a feed that is configured by this key. *)
Section literal.
Variable lit : list (string * Feed) → gmap string Feed.
Variable rng : gmap string Feed → list (string * Feed).
Hypothesis sound : ∀ l k f, lit l !! k = Some f → (k, f) ∈ l.
Hypothesis visits : ∀ m, rng m ≡ₚ map_to_list m.
Variable config : Config.

Lemma literal_key k f : (k, f) ∈ literal config → k = feedURIStr config f.
Proof.
  unfold literal. rewrite !elem_of_cons, elem_of_nil.
  intros [[= -> ->]|[[= -> ->]|[[= -> ->]|[]]]]; done.
Qed.

Lemma literal_feed f : (feedURIStr config f, f) ∈ literal config.
Proof. unfold literal. rewrite !elem_of_cons. destruct f; auto. Qed.

Lemma entries_lookup k f :
  (k, f) ∈ rng (lit (literal config)) ↔ lit (literal config) !! k = Some f.
Proof. by rewrite visits, elem_of_map_to_list. Qed.

Lemma entries_key k f : (k, f) ∈ rng (lit (literal config)) → k = feedURIStr config f.
Proof. intros Hin%entries_lookup. by apply literal_key, sound. Qed.

Lemma entries_NoDup : NoDup (snd <$> rng (lit (literal config))).
Proof.
  apply NoDup_fmap_2_strong.
  - intros [k1 f1] [k2 f2] H1%entries_key H2%entries_key. simpl. by intros; subst.
  - rewrite visits. apply NoDup_map_to_list.
Qed.
End literal.

Lemma GetConfig_parses lit rng p config :
  BindPFlags p = None → Unmarshal p = (config, None) →
  noneOf [DeparturesURIStr config; ParkingsURIStr config; EquipmentsURIStr config] = false →
  GetConfig lit rng p
  = (fst (parseURIs (Parse p) (rng (lit (literal config))) config), None,
     snd (parseURIs (Parse p) (rng (lit (literal config))) config)).
Proof.
  intros Hb Hu Hn. unfold GetConfig. rewrite Hb, Hu, Hn.
  by destruct (parseURIs (Parse p) (rng (lit (literal config))) config).
Qed.

(** X17. [GetConfig] asks for one feed at least and for nothing more.
    [noneOf] answers true exactly when every one of its arguments is the
    empty string.  [GetConfig] returns an error exactly when the flags
    cannot be bound, the configuration cannot be decoded, or none of the
    three feeds has an address; it has then parsed nothing.  An address
    that [url.Parse] refuses is logged and is no error. *)
Theorem GetConfig_needs_one_feed lit rng p :
  (∀ args, noneOf args = true ↔ Forall (λ a, a = EmptyString) args)
  ∧ (snd (fst (GetConfig lit rng p)) = None ↔
       BindPFlags p = None ∧ snd (Unmarshal p) = None
       ∧ ∃ f, feedURIStr (fst (Unmarshal p)) f ≠ EmptyString)
  ∧ (snd (fst (GetConfig lit rng p)) ≠ None → snd (GetConfig lit rng p) = []).
Proof.
  split; [exact noneOf_spec|].
  unfold GetConfig. destruct (BindPFlags p) as [e|].
  { split; [|done]. split; [done|]. by intros [? _]. }
  destruct (Unmarshal p) as [config [e|]].
  { split; [|done]. split; [done|]. by intros (_ & ? & _). }
  destruct (noneOf [DeparturesURIStr config; ParkingsURIStr config;
                    EquipmentsURIStr config]) eqn:Hn.
  - split; [|done]. split; [done|]. intros (_ & _ & f & Hf). simpl in Hf.
    apply noneOf_spec in Hn.
    apply Forall_cons in Hn as [H1 Hn]. apply Forall_cons in Hn as [H2 Hn].
    apply Forall_cons in Hn as [H3 _]. by destruct f.
  - match goal with |- context [parseURIs ?a ?b ?c] => destruct (parseURIs a b c) end.
    simpl. split; [|done]. split; [|done]. intros _. do 2 (split; [done|]).
    destruct (String.eqb_spec (DeparturesURIStr config) EmptyString) as [H1|H1];
      [|by exists DeparturesFeed].
    destruct (String.eqb_spec (ParkingsURIStr config) EmptyString) as [H2|H2];
      [|by exists ParkingsFeed].
    destruct (String.eqb_spec (EquipmentsURIStr config) EmptyString) as [H3|H3];
      [|by exists EquipmentsFeed].
    simpl in Hn. rewrite H1, H2, H3 in Hn. done.
Qed.

(** X18. With three different addresses, each feed gets its own.  When
    the strings of the three feeds are pairwise different, whichever way
    the map is built and visited, [GetConfig] returns no error and the
    URL of each feed is what [url.Parse] makes of the string of that
    feed, or the URL [viper.Unmarshal] left when the string is refused;
    the strings, the intervals and the log settings are as decoded. *)
Theorem GetConfig_parses_each_address lit rng p config :
  (∀ l k f, lit l !! k = Some f → (k, f) ∈ l) →
  (∀ l k f, (k, f) ∈ l → is_Some (lit l !! k)) →
  (∀ m, rng m ≡ₚ map_to_list m) →
  BindPFlags p = None → Unmarshal p = (config, None) →
  DeparturesURIStr config ≠ ParkingsURIStr config →
  DeparturesURIStr config ≠ EquipmentsURIStr config →
  ParkingsURIStr config ≠ EquipmentsURIStr config →
  ∃ config' evs,
    GetConfig lit rng p = (config', None, evs)
    ∧ (∀ f, feedURI config' f
            = match Parse p (feedURIStr config f) with
              | Some url => url
              | None => feedURI config f
              end)
    ∧ (∀ f, feedURIStr config' f = feedURIStr config f)
    ∧ DeparturesRefresh config' = DeparturesRefresh config
    ∧ ParkingsRefresh config' = ParkingsRefresh config
    ∧ EquipmentsRefresh config' = EquipmentsRefresh config
    ∧ JSONLog config' = JSONLog config
    ∧ LogLevel config' = LogLevel config.
Proof.
  intros Hsound Hcomplete Hvisits Hb Hu Hdp Hde Hpe.
  assert (∀ f g, feedURIStr config f = feedURIStr config g → f = g) as Hinj.
  { intros f g. destruct f, g; simpl; congruence. }
  assert (noneOf [DeparturesURIStr config; ParkingsURIStr config; EquipmentsURIStr config]
          = false) as Hn.
  { destruct (noneOf _) eqn:Hn; [|done]. apply noneOf_spec in Hn.
    apply Forall_cons in Hn as [H1 Hn]. apply Forall_cons in Hn as [H2 _]. congruence. }
  rewrite (GetConfig_parses _ _ _ _ Hb Hu Hn). eexists _, _. split; [done|].
  split; [|apply parseURIs_settings].
  intros f.
  assert ((feedURIStr config f, f) ∈ rng (lit (literal config))) as Hin.
  { apply (entries_lookup lit rng Hvisits).
    destruct (Hcomplete _ _ _ (literal_feed config f)) as [g Hg].
    rewrite Hg. f_equal. apply Hinj. symmetry.
    by apply literal_key, Hsound. }
  destruct (Parse p (feedURIStr config f)) as [url|] eqn:Hp.
  - eapply parseURIs_set; [|done..]. by apply entries_NoDup.
  - apply parseURIs_untouched. intros k Hk.
    by rewrite (entries_key lit rng Hsound Hvisits config _ _ Hk).
Qed.

(** X19. One address for two feeds leaves one of them without URL.  The
    map of [GetConfig] has the strings for keys, so that two feeds
    configured by the same string share one entry: whichever way the map
    is built and visited, and even when the string parses, one of the two
    feeds keeps the URL [viper.Unmarshal] left; when that is the zero
    URL, retrieval for this feed fails in every world with the
    unsupported-protocol error for the empty scheme. *)
Theorem GetConfig_shared_address_serves_one_feed lit rng p config f g :
  (∀ l k h, lit l !! k = Some h → (k, h) ∈ l) →
  (∀ m, rng m ≡ₚ map_to_list m) →
  BindPFlags p = None → Unmarshal p = (config, None) →
  f ≠ g → feedURIStr config f = feedURIStr config g →
  ∃ h, (h = f ∨ h = g)
       ∧ feedURI (fst (fst (GetConfig lit rng p))) h = feedURI config h
       ∧ (feedURI config h = zeroURL →
          ∀ w, getFile w (feedURI (fst (fst (GetConfig lit rng p))) h)
               = Err (ErrUnsupportedProtocol EmptyString)).
Proof.
  intros Hsound Hvisits Hb Hu Hfg Hstr.
  assert (∃ h, (h = f ∨ h = g)
               ∧ feedURI (fst (fst (GetConfig lit rng p))) h = feedURI config h)
    as (h & Hh & Heq).
  { destruct (noneOf [DeparturesURIStr config; ParkingsURIStr config;
                      EquipmentsURIStr config]) eqn:Hn.
    { exists f. split; [by left|]. unfold GetConfig. by rewrite Hb, Hu, Hn. }
    rewrite (GetConfig_parses _ _ _ _ Hb Hu Hn). simpl.
    assert (∀ h, lit (literal config) !! feedURIStr config h ≠ Some h →
                 feedURI (fst (parseURIs (Parse p) (rng (lit (literal config))) config)) h
                 = feedURI config h) as Hout.
    { intros h Hh. apply parseURIs_untouched. intros k Hk. destruct Hh.
      rewrite <- (entries_key lit rng Hsound Hvisits config _ _ Hk).
      by apply (entries_lookup lit rng Hvisits). }
    destruct (lit (literal config) !! feedURIStr config f) as [h|] eqn:Hl.
    - destruct (decide (h = f)) as [->|Hne].
      + exists g. split; [by right|]. apply Hout. rewrite <- Hstr, Hl. congruence.
      + exists f. split; [by left|]. apply Hout. rewrite Hl. congruence.
    - exists f. split; [by left|]. apply Hout. by rewrite Hl. }
  exists h. split; [done|]. split; [done|]. intros Hzero w. by rewrite Heq, Hzero.
Qed.

(** * The charset reader *)

Lemma ISO8859_1_cons c input :
  ISO8859_1 (String c input)
  = if (nat_of_ascii c <? 128)%nat then String c (ISO8859_1 input)
    else String (ascii_of_nat (192 + nat_of_ascii c / 64))
           (String (ascii_of_nat (128 + nat_of_ascii c mod 64)) (ISO8859_1 input)).
Proof. done. Qed.

Lemma nat_of_ascii_inj c c' : nat_of_ascii c = nat_of_ascii c' → c = c'.
Proof.
  intros H. by rewrite <- (ascii_nat_embedding c), <- (ascii_nat_embedding c'), H.
Qed.

(** The two bytes a byte from 128 on is written with. *)
Lemma two_bytes c :
  (128 ≤ nat_of_ascii c)%nat →
  nat_of_ascii (ascii_of_nat (192 + nat_of_ascii c / 64))
  = (192 + nat_of_ascii c / 64)%nat
  ∧ nat_of_ascii (ascii_of_nat (128 + nat_of_ascii c mod 64))
    = (128 + nat_of_ascii c mod 64)%nat
  ∧ (nat_of_ascii c / 64 < 4)%nat.
Proof.
  intros Hc. pose proof (nat_ascii_bounded c) as Hb.
  assert (nat_of_ascii c / 64 < 4)%nat as Hq by (apply Nat.Div0.div_lt_upper_bound; lia).
  pose proof (Nat.mod_upper_bound (nat_of_ascii c) 64 ltac:(lia)) as Hr.
  split; [|split; [|done]]; apply nat_ascii_embedding; lia.
Qed.

Lemma String_inj a s b t : String a s = String b t → a = b ∧ s = t.
Proof. by intros [= -> ->]. Qed.

Lemma ISO8859_1_inj input input' : ISO8859_1 input = ISO8859_1 input' → input = input'.
Proof.
  revert input'. induction input as [|c input IH]; intros [|c' input'].
  - done.
  - rewrite ISO8859_1_cons. simpl. by destruct (Nat.ltb_spec (nat_of_ascii c') 128).
  - rewrite ISO8859_1_cons. simpl. by destruct (Nat.ltb_spec (nat_of_ascii c) 128).
  - rewrite !ISO8859_1_cons.
    destruct (Nat.ltb_spec (nat_of_ascii c) 128) as [Hc|Hc],
             (Nat.ltb_spec (nat_of_ascii c') 128) as [Hc'|Hc'].
    + intros [-> H]%String_inj. by rewrite (IH _ H).
    + intros [-> _]%String_inj. destruct (two_bytes c' Hc') as (H1 & _ & _).
      rewrite H1 in Hc. lia.
    + intros [<- _]%String_inj. destruct (two_bytes c Hc) as (H1 & _ & _).
      rewrite H1 in Hc'. lia.
    + intros [H1 [H2 H]%String_inj]%String_inj. destruct (two_bytes c Hc) as (Hq & Hr & _).
      destruct (two_bytes c' Hc') as (Hq' & Hr' & _).
      apply (f_equal nat_of_ascii) in H1, H2. rewrite Hq, Hq' in H1. rewrite Hr, Hr' in H2.
      pose proof (Nat.div_mod_eq (nat_of_ascii c) 64) as Hd.
      pose proof (Nat.div_mod_eq (nat_of_ascii c') 64) as Hd'.
      rewrite (IH _ H). f_equal. apply nat_of_ascii_inj. lia.
Qed.

Lemma ISO8859_1_ascii input : isASCII input = true → ISO8859_1 input = input.
Proof.
  induction input as [|c input IH]; [done|]. rewrite ISO8859_1_cons. simpl.
  intros [-> Hin]%andb_true_iff. by rewrite IH.
Qed.

(** X20. The one charset the reader knows, and what it does with it.
    [getCharsetReader] returns a reader exactly for the name
    "ISO-8859-1", written so; the reader leaves text of bytes under 128
    as it is and gives different output for different input, so that
    nothing of a document is lost in it.  The decoder therefore reads a
    document of bytes under 128 that declares ISO-8859-1 as the document
    stands. *)
Theorem getCharsetReader_keeps_the_document :
  (∀ charset input output,
     getCharsetReader charset input = Ok output
     ↔ charset = "ISO-8859-1" ∧ output = ISO8859_1 input)
  ∧ (∀ input, isASCII input = true → ISO8859_1 input = input)
  ∧ (∀ input input', ISO8859_1 input = ISO8859_1 input' → input = input')
  ∧ (∀ (E : Type) (xmlEncoding : string → string)
       (xmlUnmarshal : string → result (Root E)) file,
       xmlEncoding file = "ISO-8859-1" → isASCII file = true →
       Decode xmlEncoding xmlUnmarshal getCharsetReader file = xmlUnmarshal file).
Proof.
  split; [|split; [exact ISO8859_1_ascii|split; [exact ISO8859_1_inj|]]].
  - intros charset input output. unfold getCharsetReader.
    destruct (String.eqb_spec charset "ISO-8859-1") as [->|Hne].
    + split; [by intros [= <-]|by intros [_ ->]].
    + split; [done|by intros [? _]].
  - intros E xmlEncoding xmlUnmarshal file Henc Hascii. unfold Decode. rewrite Henc.
    simpl. unfold getCharsetReader. simpl. by rewrite ISO8859_1_ascii.
Qed.

(** * The theorems at work on concrete feeds *)

(** C1 at work: a departures file whose second line has seven fields. The
    cycle returns the reader's error and the store still holds the
    snapshots of the earlier refresh. *)
Lemma failed_refresh_keeps_snapshot_witness :
  let w := standin.world "/feeds/departures.txt"
             (standin.text ["a;b;c;d;e;f;g;h"; "1;2;3;4;5;6;7"]) in
  let st := Build_State
              (Build_DataManager [standin.oldDeparture] [standin.oldParking]
                 [standin.oldEquipment])
              standin.noMetrics in
  let r := RefreshDepartures standin.makeDepartureLineConsumer standin.data w st
             (standin.fileURI "/feeds/departures.txt") in
  snd r = Some (ErrCsv ErrFieldCount) ∧ manager (fst r) = manager st.
Proof.
  intros w st r. split; [vm_compute; reflexivity|].
  pose proof (failed_refresh_keeps_snapshot
                standin.makeDepartureLineConsumer standin.data
                standin.makeParkingLineConsumer standin.parkings
                standin.ID standin.NewEquipmentDetail
                (standin.xmlEncoding standin.docs) (standin.xmlUnmarshal standin.docs)
                standin.mapRange w st (standin.fileURI "/feeds/departures.txt")) as H.
  apply (proj1 (proj2 (proj2 H)) (fst r) (ErrCsv ErrFieldCount)).
  vm_compute. reflexivity.
Defined.

(** C2 at work: the same file; the refresh cycle fails as a whole. *)
Lemma departures_eight_fields_witness :
  let file := standin.text ["a;b;c;d;e;f;g;h"; "1;2;3;4;5;6;7"] in
  let w := standin.world "/feeds/departures.txt" file in
  let st := Build_State
              (Build_DataManager [standin.oldDeparture] [standin.oldParking]
                 [standin.oldEquipment])
              standin.noMetrics in
  ∃ e, RefreshDepartures standin.makeDepartureLineConsumer standin.data w st
         (standin.fileURI "/feeds/departures.txt")
       = ({| manager := manager st; metrics := Inc DeparturesFeed (metrics st) |}, Some e).
Proof.
  intros file w st.
  refine (proj2 (proj1 (departures_eight_fields
                          standin.makeDepartureLineConsumer standin.data w
                          standin.Europe_Paris st (standin.fileURI "/feeds/departures.txt")
                          file eq_refl eq_refl)
                   ["1"; "2"; "3"; "4"; "5"; "6"; "7"] _ _)).
  - apply list_elem_of_In. vm_compute. right. left. reflexivity.
  - simpl. lia.
Defined.

(** C2 does not hold as the claim has it: a file whose two lines each
    have eight fields, the last field of the second line with a double
    quote in it.  Every record the reader delivers has eight fields, and
    the load fails on the quote: the refresh cycle returns the error. *)
Lemma departures_eight_fields_not_enough :
  let file := standin.text ["a;b;c;d;e;f;g;h"; "1;2;3;4;5;6;7;8" +:+ String DQUOTE "x"] in
  let w := standin.world "/feeds/departures.txt" file in
  let st := Build_State
              (Build_DataManager [standin.oldDeparture] [standin.oldParking]
                 [standin.oldEquipment])
              standin.noMetrics in
  (∀ fields, (fields, None) ∈ csv.records ";" file → length fields = 8%nat)
  ∧ snd (LoadData w file standin.makeDepartureLineConsumer) = Some (ErrCsv ErrBareQuote)
  ∧ RefreshDepartures standin.makeDepartureLineConsumer standin.data w st
      (standin.fileURI "/feeds/departures.txt")
    = ({| manager := manager st; metrics := Inc DeparturesFeed (metrics st) |},
       Some (ErrCsv ErrBareQuote)).
Proof.
  intros file w st. split_and!.
  - intros fields Hin. apply list_elem_of_In in Hin. vm_compute in Hin.
    destruct Hin as [[= <-]|[[=]|[]]]. reflexivity.
  - vm_compute. reflexivity.
  - vm_compute. reflexivity.
Qed.

(** C3 at work: the document with the equipment 821 under two stations. *)
Lemma equipments_last_occurrence_wins_witness :
  ∃ l, LoadXmlData standin.ID standin.NewEquipmentDetail
         (standin.xmlEncoding standin.docs) (standin.xmlUnmarshal standin.docs)
         standin.mapRange
         (standin.world "/feeds/equipments.xml" standin.latin1Document)
         standin.latin1Document = Ok l
       ∧ NoDup (standin.ID <$> l)
       ∧ ∃ ed, ed ∈ l ∧ standin.ID ed = "821" ∧ standin.Station ed = "Perrache".
Proof.
  destruct (LoadXmlData standin.ID standin.NewEquipmentDetail
              (standin.xmlEncoding standin.docs) (standin.xmlUnmarshal standin.docs)
              standin.mapRange
              (standin.world "/feeds/equipments.xml" standin.latin1Document)
              standin.latin1Document) as [l|e] eqn:Hl; [|by vm_compute in Hl].
  exists l. split; [reflexivity|].
  destruct (equipments_last_occurrence_wins standin.ID standin.src_ID
              standin.NewEquipmentDetail
              (standin.xmlEncoding standin.docs) (standin.xmlUnmarshal standin.docs)
              standin.mapRange
              (standin.world "/feeds/equipments.xml" standin.latin1Document)
              standin.latin1Document l)
    as (location & root & updatedAt & Hloc & Hdec & Hdate & Hnd & Hlast).
  - intros m. reflexivity.
  - intros e t loc ed [= <-]. reflexivity.
  - exact Hl.
  - split; [exact Hnd|].
    assert (Ok standin.Europe_Paris = Ok location) as [= <-] by exact Hloc.
    assert (Ok standin.sampleRoot = Ok root) as [= <-] by exact Hdec.
    exists {| standin.ID := "821"; standin.Station := "Perrache"; standin.Line := "A";
              standin.Status := "out of order"; standin.UpdatedAt := updatedAt |}.
    split; [|split; reflexivity].
    apply Hlast.
    exists {| standin.src_ID := "821"; standin.src_Station := "Perrache";
              standin.src_Line := "A"; standin.src_Status := "out of order" |}.
    split; reflexivity.
Defined.





(** C6 at work: four lines in, three records consumed. *)
Lemma skipFirstLine_handed_witness :
  let file := standin.text ["id;name"; "1;P1"; "2;P2"; "3;P3"] in
  let w := standin.world "/feeds/parkings.csv" file in
  ∃ c', LoadDataWithOptions w file
          ((standin.makeParkingLineConsumer, []) : recorder standin.parkingLineConsumer)
          parkingOptions
        = ((c', [["1"; "P1"]; ["2"; "P2"]; ["3"; "P3"]]), None).
Proof.
  intros file w.
  destruct (skipFirstLine_handed w file standin.makeParkingLineConsumer parkingOptions
              eq_refl) as (c' & log & err & Hrun & Hplain & _ & Hall).
  assert (err = None) as ->.
  { vm_compute in Hplain. by injection Hplain as _ <-. }
  destruct (Hall eq_refl) as [-> _]. exists c'. exact Hrun.
Defined.

(** C6 does not hold as the claim has it: three records, of which the
    second has not the field count of the first.  The load stops there:
    none of the two records after the first is handed to the consumer. *)
Lemma skipFirstLine_load_interrupted :
  let file := standin.text ["id;name"; "1;P1;x"; "2;P2"] in
  let w := standin.world "/feeds/parkings.csv" file in
  skipFirstLine parkingOptions = true
  ∧ length (csv.records (delimiter parkingOptions) file) = 3%nat
  ∧ LoadDataWithOptions w file
      ((standin.makeParkingLineConsumer, []) : recorder standin.parkingLineConsumer)
      parkingOptions
    = ((standin.makeParkingLineConsumer, []), Some (ErrCsv ErrFieldCount)).
Proof. intros file w. split_and!; vm_compute; reflexivity. Qed.

(** C7 at work: the document that declares UTF-16. *)
Lemma unknown_charset_fails_witness :
  let w := standin.world "/feeds/equipments.xml" standin.utf16Document in
  let st := Build_State
              (Build_DataManager [standin.oldDeparture] [standin.oldParking]
                 [standin.oldEquipment])
              standin.noMetrics in
  RefreshEquipments standin.ID standin.NewEquipmentDetail
    (standin.xmlEncoding standin.docs) (standin.xmlUnmarshal standin.docs)
    standin.mapRange w st (standin.fileURI "/feeds/equipments.xml")
  = ({| manager := manager st; metrics := Inc EquipmentsFeed (metrics st) |},
     Some (ErrXmlCharset "UTF-16" ErrUnknownCharset)).
Proof.
  intros w st.
  refine (proj2 (proj2 (unknown_charset_fails
                          standin.ID standin.NewEquipmentDetail
                          (standin.xmlEncoding standin.docs)
                          (standin.xmlUnmarshal standin.docs) standin.mapRange w
                          standin.Europe_Paris st (standin.fileURI "/feeds/equipments.xml")
                          standin.utf16Document eq_refl eq_refl _ _ _))).
  - vm_compute. discriminate.
  - vm_compute. reflexivity.
  - vm_compute. discriminate.
Defined.



(** * The further properties at work *)

(** X3 at work: an address with the scheme "http". *)
Lemma unsupported_scheme_fails_everywhere_witness :
  let uri := {| Scheme := "http"; Username := EmptyString; Password := EmptyString;
                Host := "feeds.example"; Path := "/departures.txt" |} in
  let st := Build_State
              (Build_DataManager [standin.oldDeparture] [standin.oldParking]
                 [standin.oldEquipment])
              standin.noMetrics in
  RefreshDepartures standin.makeDepartureLineConsumer standin.data standin.offline st uri
  = ({| manager := manager st; metrics := Inc DeparturesFeed (metrics st) |},
     Some (ErrUnsupportedProtocol "http")).
Proof.
  intros uri st.
  refine (proj1 (proj2 (unsupported_scheme_fails_everywhere
                          standin.makeDepartureLineConsumer standin.data
                          standin.makeParkingLineConsumer standin.parkings
                          standin.ID standin.NewEquipmentDetail
                          (standin.xmlEncoding standin.docs)
                          (standin.xmlUnmarshal standin.docs) standin.mapRange
                          standin.offline st uri _ _))).
  - vm_compute. discriminate.
  - vm_compute. discriminate.
Defined.

(** X4 at work: a host without the time zone database. *)
Lemma no_time_zone_no_refresh_witness :
  let file := standin.text ["C3;0412;41201;Laurent Bonnevay;0;2024-03-10;07:15:30;E"] in
  let w := {| readFile _ := Ok file;
              sftpGet _ := Err (ErrIO "connection refused");
              LoadLocation n := Err (ErrLoadLocation n);
              elapsed := 1500000 |} in
  let st := Build_State
              (Build_DataManager [standin.oldDeparture] [standin.oldParking]
                 [standin.oldEquipment])
              standin.noMetrics in
  RefreshDepartures standin.makeDepartureLineConsumer standin.data w st
    (standin.fileURI "/feeds/departures.txt")
  = ({| manager := manager st; metrics := Inc DeparturesFeed (metrics st) |},
     Some (ErrLoadLocation "Europe/Paris")).
Proof.
  intros file w st.
  refine (proj1 (no_time_zone_no_refresh
                   standin.makeDepartureLineConsumer standin.data
                   standin.makeParkingLineConsumer standin.parkings
                   standin.ID standin.NewEquipmentDetail
                   (standin.xmlEncoding standin.docs)
                   (standin.xmlUnmarshal standin.docs) standin.mapRange
                   w st (standin.fileURI "/feeds/departures.txt") file
                   (ErrLoadLocation "Europe/Paris") _ _)).
  - reflexivity.
  - reflexivity.
Defined.

(** X8 at work: three cycles of the parkings loop with nothing to
    retrieve. *)
Lemma failing_feed_keeps_its_snapshot_witness :
  let st := Build_State
              (Build_DataManager [standin.oldDeparture] [standin.oldParking]
                 [standin.oldEquipment])
              standin.noMetrics in
  ∃ st' evs,
    RefreshParkingLoop standin.makeParkingLineConsumer standin.parkings 3
      (λ _, standin.offline) st (standin.fileURI "/feeds/parkings.csv") 30000000000
    = (Looping, st', evs)
    ∧ manager st' = manager st
    ∧ parkingsLoadingDuration (metrics st') = parkingsLoadingDuration (metrics st)
    ∧ parkingsLoadingErrors (metrics st') = (3 + parkingsLoadingErrors (metrics st))%nat.
Proof.
  intros st.
  refine (proj1 (proj2 (failing_feed_keeps_its_snapshot
                          standin.makeDepartureLineConsumer standin.data
                          standin.makeParkingLineConsumer standin.parkings
                          standin.ID standin.NewEquipmentDetail
                          (standin.xmlEncoding standin.docs)
                          (standin.xmlUnmarshal standin.docs) standin.mapRange
                          3 (λ _, standin.offline) st
                          (standin.fileURI "/feeds/parkings.csv") 30000000000)) _).
  intros j _. vm_compute. discriminate.
Defined.

(** X9 at work: of three cycles of the parkings loop the second finds
    the file, the third nothing; the parking of the second cycle is still
    served. *)
Lemma loops_serve_last_good_snapshot_witness :
  let w := λ j : nat,
    if (j =? 1)%nat
    then standin.world "/feeds/parkings.csv" (standin.text ["id;name"; "1;P1"])
    else standin.offline in
  let st := Build_State
              (Build_DataManager [standin.oldDeparture] [standin.oldParking]
                 [standin.oldEquipment])
              standin.noMetrics in
  let r := RefreshParkingLoop standin.makeParkingLineConsumer standin.parkings 3 w st
             (standin.fileURI "/feeds/parkings.csv") 30000000000 in
  parkingsData (manager (snd (fst r)))
  = parkingsData
      (manager (fst (RefreshParkings standin.makeParkingLineConsumer standin.parkings
                       (w 1%nat) st (standin.fileURI "/feeds/parkings.csv")))).
Proof.
  intros w st r.
  refine (proj1 (proj2 (loops_serve_last_good_snapshot
                          standin.makeDepartureLineConsumer standin.data
                          standin.makeParkingLineConsumer standin.parkings
                          standin.ID standin.NewEquipmentDetail
                          (standin.xmlEncoding standin.docs)
                          (standin.xmlUnmarshal standin.docs) standin.mapRange
                          3 1 w st (standin.fileURI "/feeds/parkings.csv") 30000000000 _))
            _ _ (fst (fst r)) (snd (fst r)) (snd r) _).
  - lia.
  - vm_compute. reflexivity.
  - intros j Hj. assert (j = 2%nat) as -> by lia. vm_compute. discriminate.
  - vm_compute. reflexivity.
Defined.


(** X11 at work: the document with the equipment 821 under two
    stations, and a builder that refuses the equipment 822: the load
    returns the error of the second element and no record of the first. *)
Lemma equipments_all_or_nothing_witness :
  let build := λ (e : standin.EquipmentSource) (t : time.Time) (loc : time.Location),
    if String.eqb (standin.src_ID e) "822" then Err (ErrEquipment "status unknown")
    else standin.NewEquipmentDetail e t loc in
  LoadXmlData standin.ID build
    (standin.xmlEncoding standin.docs) (standin.xmlUnmarshal standin.docs)
    standin.mapRange
    (standin.world "/feeds/equipments.xml" standin.latin1Document)
    standin.latin1Document
  = Err (ErrEquipment "status unknown").
Proof.
  intros build.
  refine (proj2 (equipments_all_or_nothing standin.ID build
                   (standin.xmlEncoding standin.docs) (standin.xmlUnmarshal standin.docs)
                   standin.mapRange
                   (standin.world "/feeds/equipments.xml" standin.latin1Document)
                   standin.latin1Document standin.Europe_Paris standin.sampleRoot
                   (time.Date 2024 3 10 7 15 30 0 standin.Europe_Paris) _ _ _)
            [ {| standin.src_ID := "821"; standin.src_Station := "Bellecour";
                 standin.src_Line := "A"; standin.src_Status := "available" |} ]
            {| standin.src_ID := "822"; standin.src_Station := "Bellecour";
               standin.src_Line := "A"; standin.src_Status := "available" |}
            [ {| standin.src_ID := "821"; standin.src_Station := "Perrache";
                 standin.src_Line := "A"; standin.src_Status := "out of order" |} ]
            (ErrEquipment "status unknown") _ _ _).
  - reflexivity.
  - reflexivity.
  - vm_compute. reflexivity.
  - reflexivity.
  - intros e' Hin. apply list_elem_of_In in Hin. destruct Hin as [<-|[]].
    eexists. reflexivity.
  - reflexivity.
Defined.

(** X12 at work: the same document, three elements with two
    identifiers, gives two records. *)
Lemma equipments_as_many_as_identifiers_witness :
  ∃ l, LoadXmlData standin.ID standin.NewEquipmentDetail
         (standin.xmlEncoding standin.docs) (standin.xmlUnmarshal standin.docs)
         standin.mapRange
         (standin.world "/feeds/equipments.xml" standin.latin1Document)
         standin.latin1Document = Ok l
       ∧ length l = 2%nat.
Proof.
  destruct (LoadXmlData standin.ID standin.NewEquipmentDetail
              (standin.xmlEncoding standin.docs) (standin.xmlUnmarshal standin.docs)
              standin.mapRange
              (standin.world "/feeds/equipments.xml" standin.latin1Document)
              standin.latin1Document) as [l|e] eqn:Hl; [|by vm_compute in Hl].
  exists l. split; [reflexivity|].
  destruct (equipments_as_many_as_identifiers standin.ID standin.src_ID
              standin.NewEquipmentDetail
              (standin.xmlEncoding standin.docs) (standin.xmlUnmarshal standin.docs)
              standin.mapRange
              (standin.world "/feeds/equipments.xml" standin.latin1Document)
              standin.latin1Document l)
    as (location & root & updatedAt & eds & Hloc & Hdec & Hdate & Hall & Hlen & _).
  - intros m. reflexivity.
  - intros e t loc ed [= <-]. reflexivity.
  - exact Hl.
  - assert (Ok standin.sampleRoot = Ok root) as [= <-] by exact Hdec.
    rewrite Hlen. vm_compute. reflexivity.
Defined.

(** X13 at work: a departures file of two lines. *)
Lemma plain_rows_are_handed_as_written_witness :
  let rows := [ ["C3"; "0412"; "41201"; "Laurent Bonnevay"; "0"; "2024-03-10"; "07:15:30"; "E"];
                ["C3"; "0412"; "41201"; "Laurent Bonnevay"; "0"; "2024-03-10"; "07:27:00"; "E"] ] in
  let options := {| delimiter := ";"%char; nbFields := 8; skipFirstLine := false |} in
  let w := standin.world "/feeds/departures.txt" (delimited ";" rows) in
  LoadDataWithOptions w (delimited ";" rows) standin.makeDepartureLineConsumer options
  = finish (consumeAll standin.Europe_Paris standin.makeDepartureLineConsumer rows).
Proof.
  intros rows options w.
  refine (proj2 (plain_rows_are_handed_as_written w standin.Europe_Paris
                   standin.makeDepartureLineConsumer options rows _ _ _ _ _)).
  - reflexivity.
  - reflexivity.
  - repeat (constructor; [split; [repeat (constructor; [reflexivity|]); constructor
                                 |vm_compute; discriminate]|]).
    constructor.
  - intros _. repeat (constructor; [reflexivity|]). constructor.
  - intros H. vm_compute in H. discriminate H.
Defined.

(** X14 at work: lines of two and of three fields, all consumed. *)
Lemma negative_field_count_checks_nothing_witness :
  let file := standin.text ["1;P1"; "2;P2;x"] in
  let options := {| delimiter := ";"%char; nbFields := -1; skipFirstLine := false |} in
  let w := standin.world "/feeds/parkings.csv" file in
  LoadDataWithOptions w file standin.makeParkingLineConsumer options
  = finish (consumeAll standin.Europe_Paris standin.makeParkingLineConsumer
              [["1"; "P1"]; ["2"; "P2"; "x"]]).
Proof.
  intros file options w.
  refine (proj1 (negative_field_count_checks_nothing w standin.Europe_Paris file
                   standin.makeParkingLineConsumer options _ _ _ _)).
  - reflexivity.
  - reflexivity.
  - vm_compute. reflexivity.
  - vm_compute. repeat (constructor; [reflexivity|]). constructor.
Defined.

(** X15 at work: a parkings file whose third line has one field too
    many.  One line is consumed, the load fails, and [Terminate] is not
    called. *)
Lemma Terminate_once_and_only_on_success_witness :
  let file := standin.text ["id;name"; "1;P1"; "2;P2;x"] in
  let w := standin.world "/feeds/parkings.csv" file in
  let r := LoadDataWithOptions w file standin.makeParkingLineConsumer parkingOptions in
  snd r = Some (ErrCsv ErrFieldCount)
  ∧ ∃ handed,
      LoadDataWithOptions w file
        ((standin.makeParkingLineConsumer, []) : tracer standin.parkingLineConsumer)
        parkingOptions
      = ((fst r, (Consumed <$> handed)
                 ++ match snd r with None => [Terminated] | Some _ => [] end),
         snd r)
      ∧ handed `prefix_of` [["1"; "P1"]; ["2"; "P2"; "x"]].
Proof.
  intros file w r. split; [vm_compute; reflexivity|].
  exact (Terminate_once_and_only_on_success w file standin.makeParkingLineConsumer
           parkingOptions eq_refl).
Defined.

Lemma standin_mapLiteral_sound l k f :
  standin.mapLiteral l !! k = Some f → (k, f) ∈ l.
Proof.
  unfold standin.mapLiteral. intros H%elem_of_list_to_map_2. by apply elem_of_reverse.
Qed.

Lemma standin_mapLiteral_complete l k (f : Feed) :
  (k, f) ∈ l → is_Some (standin.mapLiteral l !! k).
Proof.
  unfold standin.mapLiteral. intros Hin.
  destruct (list_to_map (reverse l) !! k) as [g|] eqn:Hl; [by eexists|].
  apply not_elem_of_list_to_map in Hl. destruct Hl.
  apply (list_elem_of_fmap_2 fst _ (k, f)). by apply elem_of_reverse.
Qed.

(** X18 at work: two feeds with an address each, the third with none. *)
Lemma GetConfig_parses_each_address_witness :
  let p := standin.process "file:///feeds/departures.txt" "file:///feeds/parkings.csv"
             EmptyString in
  ∃ config' evs,
    GetConfig standin.mapLiteral standin.rangeURIs p = (config', None, evs)
    ∧ DeparturesURI config' = standin.fileURI "/feeds/departures.txt"
    ∧ ParkingsURI config' = standin.fileURI "/feeds/parkings.csv"
    ∧ EquipmentsURI config' = zeroURL.
Proof.
  intros p.
  destruct (GetConfig_parses_each_address standin.mapLiteral standin.rangeURIs p
              (fst (Unmarshal p)) standin_mapLiteral_sound standin_mapLiteral_complete
              (λ m, reflexivity _) eq_refl eq_refl)
    as (config' & evs & Hrun & Huri & _).
  - vm_compute. discriminate.
  - vm_compute. discriminate.
  - vm_compute. discriminate.
  - exists config', evs. split; [exact Hrun|]. split; [exact (Huri DeparturesFeed)|].
    split; [exact (Huri ParkingsFeed)|exact (Huri EquipmentsFeed)].
Defined.

(** X19 at work: the departures and the parkings configured with one
    file.  One of the two is left with the empty URL and cannot be
    retrieved. *)
Lemma GetConfig_shared_address_serves_one_feed_witness :
  let p := standin.process "file:///feeds/all.txt" "file:///feeds/all.txt" EmptyString in
  ∃ h, (h = DeparturesFeed ∨ h = ParkingsFeed)
       ∧ ∀ w, getFile w (feedURI (fst (fst (GetConfig standin.mapLiteral
                                              standin.rangeURIs p))) h)
              = Err (ErrUnsupportedProtocol EmptyString).
Proof.
  intros p.
  destruct (GetConfig_shared_address_serves_one_feed standin.mapLiteral standin.rangeURIs p
              (fst (Unmarshal p)) DeparturesFeed ParkingsFeed standin_mapLiteral_sound
              (λ m, reflexivity _) eq_refl eq_refl)
    as (h & Hh & _ & Hget).
  - discriminate.
  - reflexivity.
  - exists h. split; [exact Hh|]. apply Hget. by destruct Hh as [->| ->].
Defined.
